(** * String-transform middleware for a GraphQL schema

    A shallow embedding of [string-transform-middleware.ts]: the rewrite pass
    that gives every String-terminated field of a graphql-compose schema an
    optional [textTransform] argument and wraps its resolver.

    Conventions of the embedding.
    - Run-time JavaScript values are the inductive [Value].  Numbers carry
      only what the middleware can observe of them (their truthiness), and
      strings are sequences of code units in the ASCII range, on which
      [String.prototype.toUpperCase]/[toLowerCase] swap [a-z] and [A-Z] and
      fix everything else.  Above code unit 127 the engine's case mappings
      do more (they can even change the length of a string) and [\s] has
      further members: such code units are outside the model, and the
      properties that depend on the case mappings beyond the three modes of
      [baseTransform] are stated for ASCII strings ([isAsciiString]).
    - A JavaScript call either returns or throws: [result].
    - A promise is represented by the way it settles, so an [async] function
      is again a function into [result].
    - graphql-compose's type composers are the inductive [OutputType].  Its
      code is not part of the repository: [getTypeName], [getUnwrappedTC],
      [getETC] and [add] are modelled by the library's behaviour.  The
      schema is taken to be well-formed: thunks resolve. *)

From Stdlib Require Import Ascii String ZArith Lia.
From stdpp Require Import base option list gmap strings.

Set Warnings "-register-all".

Local Open Scope string_scope.
Local Open Scope list_scope.

(** ** JavaScript values and exceptions *)

Inductive number : Type :=
| NaN
| Num (z : Z).

Inductive Value : Type :=
| VUndefined
| VNull
| VBool (b : bool)
| VNumber (n : number)
| VString (s : string)
| VArray (items : list Value)
| VObject (props : list (string * Value)).

(** The error classes that occur: [NotAString] is the private class of the
    middleware, [UserInputError] comes from apollo-server, [TypeError] is the
    engine's, [Error] is the plain class graphql-compose throws. *)
Inductive exn : Type :=
| NotAString
| UserInputError (message : string)
| TypeError (message : string)
| Error (message : string).

Inductive result (A : Type) : Type :=
| Ok (a : A)
| Throw (e : exn).

Arguments Ok {A} a.
Arguments Throw {A} e.

(** Sequencing stops at the first [Throw]; stdpp's [x ← r; k] is its
    notation. *)
#[global] Instance result_ret : MRet result := fun A a => Ok a.

#[global] Instance result_bind : MBind result := fun A B k r =>
  match r with
  | Ok a => k a
  | Throw e => Throw e
  end.

(** [e instanceof NotAString] *)
Definition instanceofNotAString (e : exn) : bool :=
  match e with
  | NotAString => true
  | _ => false
  end.

(** [!v] is [negb (truthy v)]. *)
Definition truthy (v : Value) : bool :=
  match v with
  | VUndefined | VNull => false
  | VBool b => b
  | VNumber NaN => false
  | VNumber (Num z) => negb (Z.eqb z 0)
  | VString s => negb (String.eqb s "")
  | VArray _ | VObject _ => true
  end.

(** [typeof v] *)
Definition typeof (v : Value) : string :=
  match v with
  | VUndefined => "undefined"
  | VNull => "object"
  | VBool _ => "boolean"
  | VNumber _ => "number"
  | VString _ => "string"
  | VArray _ | VObject _ => "object"
  end.

(** [v === 'lit'] for a string literal, as the [case] labels of a [switch]
    compare. *)
Definition strictEqString (v : Value) (lit : string) : bool :=
  match v with
  | VString s => String.eqb s lit
  | _ => false
  end.

(** [Array.isArray(v)] *)
Definition isArray (v : Value) : bool :=
  match v with
  | VArray _ => true
  | _ => false
  end.

Fixpoint lookupProp (key : string) (props : list (string * Value)) : Value :=
  match props with
  | [] => VUndefined
  | (k, v) :: rest => if String.eqb k key then v else lookupProp key rest
  end.

(** [o[key]] for a key that is a GraphQL name (so never an array index): a
    [TypeError] on [undefined] and [null], the own property on an object,
    [length] on arrays and strings, and [undefined] otherwise.  Properties
    inherited from a prototype (methods) are not modelled. *)
Definition getProp (o : Value) (key : string) : result Value :=
  match o with
  | VUndefined | VNull =>
      Throw (TypeError "Cannot read properties of null or undefined")
  | VObject props => Ok (lookupProp key props)
  | VArray items =>
      if String.eqb key "length" then Ok (VNumber (Num (Z.of_nat (length items))))
      else Ok VUndefined
  | VString s =>
      if String.eqb key "length" then Ok (VNumber (Num (Z.of_nat (String.length s))))
      else Ok VUndefined
  | VBool _ | VNumber _ => Ok VUndefined
  end.

(** ** Strings *)

Definition isUpperChar (c : ascii) : bool :=
  (65 <=? nat_of_ascii c)%nat && (nat_of_ascii c <=? 90)%nat.

Definition isLowerChar (c : ascii) : bool :=
  (97 <=? nat_of_ascii c)%nat && (nat_of_ascii c <=? 122)%nat.

Definition isDigitChar (c : ascii) : bool :=
  (48 <=? nat_of_ascii c)%nat && (nat_of_ascii c <=? 57)%nat.

(** The class [\w] : [A-Za-z0-9_]. *)
Definition isWordChar (c : ascii) : bool :=
  isUpperChar c || isLowerChar c || isDigitChar c || (nat_of_ascii c =? 95)%nat.

(** The class [\s] on the ASCII range: TAB, LF, VT, FF, CR and space.  [\S] is
    its complement. *)
Definition isSpaceChar (c : ascii) : bool :=
  ((9 <=? nat_of_ascii c)%nat && (nat_of_ascii c <=? 13)%nat)
  || (nat_of_ascii c =? 32)%nat.

Definition upperChar (c : ascii) : ascii :=
  if isLowerChar c then ascii_of_nat (nat_of_ascii c - 32) else c.

Definition lowerChar (c : ascii) : ascii :=
  if isUpperChar c then ascii_of_nat (nat_of_ascii c + 32) else c.

Fixpoint mapString (f : ascii -> ascii) (s : string) : string :=
  match s with
  | EmptyString => EmptyString
  | String c rest => String (f c) (mapString f rest)
  end.

(** [s.toUpperCase()] and [s.toLowerCase()] on the ASCII range: letter for
    letter, and nothing else changes. *)
Definition toUpperCase (s : string) : string := mapString upperChar s.
Definition toLowerCase (s : string) : string := mapString lowerChar s.

(** [s.charAt(0)] *)
Definition charAt0 (s : string) : string :=
  match s with
  | EmptyString => EmptyString
  | String c _ => String c EmptyString
  end.

(** [s.substr(1)] *)
Definition substr1 (s : string) : string :=
  match s with
  | EmptyString => EmptyString
  | String _ rest => rest
  end.

(** The greedy [\S*]: the longest prefix without white space, and what
    follows it.  Nothing comes after [\S*] in the pattern, so the match never
    backtracks. *)
Fixpoint spanNonSpace (s : string) : string * string :=
  match s with
  | EmptyString => (EmptyString, EmptyString)
  | String c rest =>
      if isSpaceChar c then (EmptyString, s)
      else let '(run, tail) := spanNonSpace rest in (String c run, tail)
  end.

(** [str.replace(/\w\S*/g, fn)]: scanning from the left, a match starts at a
    word character and takes all the non-space characters after it; [fn]
    rewrites the match and the scan goes on behind it.  [fuel] bounds the
    number of scan steps. *)
Fixpoint replaceWordNonSpace (fuel : nat) (fn : string -> string) (str : string)
  : string :=
  match fuel with
  | O => str
  | S fuel' =>
      match str with
      | EmptyString => EmptyString
      | String c rest =>
          if isWordChar c then
            let '(run, tail) := spanNonSpace rest in
            fn (String c run) +:+ replaceWordNonSpace fuel' fn tail
          else String c (replaceWordNonSpace fuel' fn rest)
      end
  end.

Definition toTitleCase (str : string) : string :=
  replaceWordNonSpace (String.length str)
    (fun txt => toUpperCase (charAt0 txt) +:+ toLowerCase (substr1 txt))
    str.

(** ** The base transform *)

Definition TransformFn : Type := Value -> Value -> result Value.

Definition baseTransform (value transform : Value) : result Value :=
  if negb (truthy transform) || negb (String.eqb (typeof value) "string")
  then Ok value
  else
    match value with
    | VString str =>
        if strictEqString transform "UPPERCASE" then Ok (VString (toUpperCase str))
        else if strictEqString transform "lowercase" then Ok (VString (toLowerCase str))
        else if strictEqString transform "TitleCase" then Ok (VString (toTitleCase str))
        else Throw (UserInputError "Value out of range")
    | _ => Ok value
    end.

(** ** Type composers *)

(** The type expression of a field, as graphql-compose builds it: a named
    composer (scalar, object, enum, interface, union) under any number of
    [NonNullComposer], [ListComposer] and [ThunkComposer] wrappers, each of
    which holds one inner expression. *)
Inductive OutputType : Type :=
| NamedTypeComposer (typeName : string)
| NonNullComposer (ofType : OutputType)
| ListComposer (ofType : OutputType)
| ThunkComposer (ofType : OutputType).

(** [outputType.getTypeName()]: the GraphQL notation of the expression; a
    thunk answers with the name of the type it stands for. *)
Fixpoint getTypeName (outputType : OutputType) : string :=
  match outputType with
  | NamedTypeComposer typeName => typeName
  | NonNullComposer ofType => getTypeName ofType +:+ "!"
  | ListComposer ofType => "[" +:+ getTypeName ofType +:+ "]"
  | ThunkComposer ofType => getTypeName ofType
  end.

(** The named type that is left when all wrappers are removed. *)
Fixpoint namedTypeOf (outputType : OutputType) : string :=
  match outputType with
  | NamedTypeComposer typeName => typeName
  | NonNullComposer ofType => namedTypeOf ofType
  | ListComposer ofType => namedTypeOf ofType
  | ThunkComposer ofType => namedTypeOf ofType
  end.

(** [outputType.getUnwrappedTC()], a method of graphql-compose.  On a
    [ListComposer] and on a [NonNullComposer] it follows [ofType] until it
    stands on a named composer, whatever wrappers lie between, and returns
    that one; on a [ThunkComposer] it returns the thunk's target, which may
    be a wrapper again.  The builder never calls it on a named composer,
    which is taken to be its own unwrapped form. *)
Definition getUnwrappedTC (outputType : OutputType) : OutputType :=
  match outputType with
  | NamedTypeComposer typeName => NamedTypeComposer typeName
  | NonNullComposer ofType => NamedTypeComposer (namedTypeOf ofType)
  | ListComposer ofType => NamedTypeComposer (namedTypeOf ofType)
  | ThunkComposer ofType => ofType
  end.

(** Number of wrapper layers around the named type. *)
Fixpoint wrapDepth (outputType : OutputType) : nat :=
  match outputType with
  | NamedTypeComposer _ => 0
  | NonNullComposer ofType => S (wrapDepth ofType)
  | ListComposer ofType => S (wrapDepth ofType)
  | ThunkComposer ofType => S (wrapDepth ofType)
  end.

(** ** The transform builder *)

(** The closure returned for a [ListComposer]; [subtransform] is computed
    once, outside of it. *)
Definition listTransform (subtransform : TransformFn) : TransformFn :=
  fun currentValue transform =>
    if negb (truthy transform) || negb (isArray currentValue)
    then Ok currentValue
    else
      match currentValue with
      | VArray items =>
          mapped ← mapM (fun x => subtransform x transform) items;
          Ok (VArray mapped)
      | _ => Ok currentValue
      end.

(** [maybeBuildTransform(fieldConfig, schemaComposer, outputType)]; the first
    two arguments are only handed on to the recursive calls and are left
    out.  Every branch recurses on [outputType.getUnwrappedTC()], which is
    not a part of [outputType]; [fuel] bounds the depth of the call stack
    ([None]: the bound is hit), and [throw NAS] is [Throw NotAString]. *)
Fixpoint maybeBuildTransformFuel (fuel : nat) (outputType : OutputType)
  : option (result TransformFn) :=
  match fuel with
  | O => None
  | S fuel =>
      if String.eqb (getTypeName outputType) "String" then Some (Ok baseTransform)
      else
        match outputType with
        | NonNullComposer _ =>
            let currentOutputType := getUnwrappedTC outputType in
            maybeBuildTransformFuel fuel currentOutputType
        | ListComposer _ =>
            let currentOutputType := getUnwrappedTC outputType in
            r ← maybeBuildTransformFuel fuel currentOutputType;
            Some (subtransform ← r; Ok (listTransform subtransform))
        | ThunkComposer _ =>
            let currentOutputType := getUnwrappedTC outputType in
            maybeBuildTransformFuel fuel currentOutputType
        | NamedTypeComposer _ => Some (Throw NotAString)
        end
  end.

(** The builder on a call stack that is deep enough for the expression: one
    frame for every wrapper layer and one for the named type
    ([maybeBuildTransform_unfold] below gives its defining equation, and
    shows that the bound is never hit). *)
Definition maybeBuildTransform (outputType : OutputType) : result TransformFn :=
  default (Throw (Error "Maximum call stack size exceeded"))
          (maybeBuildTransformFuel (S (wrapDepth outputType)) outputType).

(** ** Field configurations and the schema composer *)

(** A resolver is called with [(source, args, context, info)]. *)
Definition Resolver : Type := Value -> Value -> Value -> Value -> result Value.

Record ArgConfig : Type := {
  argType : OutputType;
  description : option string;
}.

Record FieldConfig : Type := {
  type : OutputType;
  args : option (gmap string ArgConfig);
  resolve : option Resolver;
}.

Definition setArgs (fieldConfig : FieldConfig) (a : gmap string ArgConfig)
  : FieldConfig :=
  {| type := type fieldConfig; args := Some a; resolve := resolve fieldConfig |}.

Definition setResolve (fieldConfig : FieldConfig) (r : Resolver) : FieldConfig :=
  {| type := type fieldConfig; args := args fieldConfig; resolve := Some r |}.

(** The composers a schema registers by name.  Only object types are
    concrete types with fields to rewrite. *)
Inductive TypeComposer : Type :=
| ObjectTypeComposer (typeName : string) (fields : gmap string FieldConfig)
| EnumTypeComposer (typeName : string) (values : list string)
| OtherTypeComposer (typeName : string).

(** Keys of the registry [composer.types]: a type name or a GraphQL type
    object.  One composer may sit under several keys, so the registry holds
    references into the store [composers]. *)
Inductive TypeKey : Type :=
| ByName (typeName : string)
| ByType (graphqlType : nat).

#[global] Instance TypeKey_eq_dec : EqDecision TypeKey.
Proof. solve_decision. Defined.

Record SchemaComposer : Type := {
  composers : list TypeComposer;
  types : list (TypeKey * nat);
}.

(** [Map.prototype.get] *)
Fixpoint mapGet (key : TypeKey) (entries : list (TypeKey * nat)) : option nat :=
  match entries with
  | [] => None
  | (k, ref) :: rest => if decide (k = key) then Some ref else mapGet key rest
  end.

(** [Map.prototype.set]: an existing key keeps its place. *)
Fixpoint mapSet (key : TypeKey) (ref : nat) (entries : list (TypeKey * nat))
  : list (TypeKey * nat) :=
  match entries with
  | [] => [(key, ref)]
  | (k, r) :: rest =>
      if decide (k = key) then (k, ref) :: rest else (k, r) :: mapSet key ref rest
  end.

(** [composer.getETC(name)]: the enum composer registered under [name], an
    [Error] when there is none. *)
Definition getETC (composer : SchemaComposer) (name : string) : result OutputType :=
  match mapGet (ByName name) (types composer) with
  | None => Throw (Error "Cannot find type")
  | Some ref =>
      match composers composer !! ref with
      | Some (EnumTypeComposer typeName _) => Ok (NamedTypeComposer typeName)
      | _ => Throw (Error "Cannot find EnumTypeComposer")
      end
  end.

(** [composer.add(...)] of a new enum type, registered under its name. *)
Definition addEnum (typeName : string) (values : list string)
    (composer : SchemaComposer) : SchemaComposer :=
  {| composers := composers composer ++ [EnumTypeComposer typeName values];
     types := mapSet (ByName typeName) (length (composers composer)) (types composer) |}.

Definition injectTextTransformEnum (composer : SchemaComposer) : SchemaComposer :=
  addEnum "TextTransform" ["UPPERCASE"; "lowercase"; "TitleCase"] composer.

(** ** Rewriting one field *)

(** A field configuration is a mutable object: the functions below return
    the configuration as they leave it, also when they throw. *)
Definition injectArgs (fieldConfig : FieldConfig) (composer : SchemaComposer)
  : FieldConfig * result unit :=
  let fieldArgs := default ∅ (args fieldConfig) in
  let fieldConfig := setArgs fieldConfig fieldArgs in
  match getETC composer "TextTransform" with
  | Throw e => (fieldConfig, Throw e)
  | Ok etc =>
      (setArgs fieldConfig
         (<["textTransform" :=
              {| argType := etc;
                 description := Some "Transforms string results into different forms" |}]>
            fieldArgs),
       Ok tt)
  end.

(** [(source) => source && typeof source === 'object' ? source[fieldName] : undefined] *)
Definition defaultResolver (fieldName : string) : Resolver :=
  fun source _ _ _ =>
    if truthy source && String.eqb (typeof source) "object"
    then getProp source fieldName
    else Ok VUndefined.

(** The replacement resolver.  [await Promise.resolve(...)] hands on the
    settled value of the original resolver, or its failure. *)
Definition transformingResolver (resolver : Resolver) (transform : TransformFn)
  : Resolver :=
  fun source args context info =>
    value ← resolver source args context info;
    mode ← (if String.eqb (typeof args) "object"
            then getProp args "textTransform"
            else Ok VUndefined);
    transform value mode.

(** Calling [undefined] as a function. *)
Definition notAFunction : Resolver :=
  fun _ _ _ _ => Throw (TypeError "resolver is not a function").

(** The [try] block of [maybeInjectTransform]. *)
Definition tryInjectTransform (fieldConfig : FieldConfig)
    (schemaComposer : SchemaComposer) : FieldConfig * result unit :=
  match maybeBuildTransform (type fieldConfig) with
  | Throw e => (fieldConfig, Throw e)
  | Ok transform =>
      match injectArgs fieldConfig schemaComposer with
      | (fieldConfig, Throw e) => (fieldConfig, Throw e)
      | (fieldConfig, Ok _) =>
          let resolver := default notAFunction (resolve fieldConfig) in
          (setResolve fieldConfig (transformingResolver resolver transform), Ok tt)
      end
  end.

(** The first statement of [maybeInjectTransform]:
    [if (!fieldConfig.resolve) fieldConfig.resolve = ...]. *)
Definition installDefaultResolver (fieldName : string) (fieldConfig : FieldConfig)
  : FieldConfig :=
  match resolve fieldConfig with
  | None => setResolve fieldConfig (defaultResolver fieldName)
  | Some _ => fieldConfig
  end.

Definition maybeInjectTransform (fieldName : string) (fieldConfig : FieldConfig)
    (schemaComposer : SchemaComposer) : FieldConfig * result unit :=
  let fieldConfig := installDefaultResolver fieldName fieldConfig in
  match tryInjectTransform fieldConfig schemaComposer with
  | (fieldConfig, Throw e) =>
      if negb (instanceofNotAString e) then (fieldConfig, Throw e)
      else (fieldConfig, Ok tt)
  | (fieldConfig, Ok _) => (fieldConfig, Ok tt)
  end.

(** ** The middleware driver *)

(** A [for] loop over [l] whose body may throw, which ends the loop. *)
Fixpoint forEach {A S : Type} (body : A -> S -> S * result unit) (l : list A)
    (s : S) : S * result unit :=
  match l with
  | [] => (s, Ok tt)
  | x :: rest =>
      match body x s with
      | (s', Ok _) => forEach body rest s'
      | (s', Throw e) => (s', Throw e)
      end
  end.

(** [typeComposer.getField(fieldName)] on the composer at [ref]. *)
Definition getField (composer : SchemaComposer) (ref : nat) (fieldName : string)
  : option FieldConfig :=
  match composers composer !! ref with
  | Some (ObjectTypeComposer _ fields) => fields !! fieldName
  | _ => None
  end.

(** The field configuration is shared with the composer: what
    [maybeInjectTransform] does to it shows in the store. *)
Definition putField (composer : SchemaComposer) (ref : nat) (fieldName : string)
    (fieldConfig : FieldConfig) : SchemaComposer :=
  match composers composer !! ref with
  | Some (ObjectTypeComposer typeName fields) =>
      {| composers :=
           <[ref := ObjectTypeComposer typeName (<[fieldName := fieldConfig]> fields)]>
             (composers composer);
         types := types composer |}
  | _ => composer
  end.

(** The body of the inner loop:
    [maybeInjectTransform(fieldName, typeComposer.getField(fieldName), composer)]. *)
Definition rewriteField (ref : nat) (fieldName : string) (composer : SchemaComposer)
  : SchemaComposer * result unit :=
  match getField composer ref fieldName with
  | None => (composer, Throw (Error "Field does not exist"))
  | Some fieldConfig =>
      let '(fieldConfig, r) := maybeInjectTransform fieldName fieldConfig composer in
      (putField composer ref fieldName fieldConfig, r)
  end.

(** The body of the outer loop: skip what is not an [ObjectTypeComposer],
    else rewrite the fields that [type.getFields()] lists.  The source
    visits them in insertion order, the model in the order of the map's keys;
    no step of the pass depends on what another step did to another field. *)
Definition rewriteType (ref : nat) (composer : SchemaComposer)
  : SchemaComposer * result unit :=
  match composers composer !! ref with
  | Some (ObjectTypeComposer _ fields) =>
      forEach (rewriteField ref) (map fst (map_to_list fields)) composer
  | _ => (composer, Ok tt)
  end.

(** [for (let typeComposer of composer.types.values())]: the references
    of the registry in their order, a composer once for every key it has. *)
Definition injectStringTransformMiddleware (composer : SchemaComposer)
  : SchemaComposer * result unit :=
  let composer := injectTextTransformEnum composer in
  forEach rewriteType (map snd (types composer)) composer.

(** ** The transform builder and the resolution of thunks *)

#[global] Instance OutputType_eq_dec : EqDecision OutputType.
Proof. solve_decision. Defined.

(** The deferred-reference layers of a type expression, outermost first. *)
Fixpoint thunkLayers (outputType : OutputType) : list OutputType :=
  match outputType with
  | NamedTypeComposer _ => []
  | NonNullComposer ofType => thunkLayers ofType
  | ListComposer ofType => thunkLayers ofType
  | ThunkComposer ofType => outputType :: thunkLayers ofType
  end.

(** A [ThunkComposer] holds a function that yields its target, and runs it
    (resolves) the first time the target is needed; the target is cached.
    What has been resolved is state of the thunk objects: here the list
    [resolved] of the thunk layers resolved so far, in the order in which
    they were.  A thunk may have been created together with the name of its
    type; [declared] says of which thunks this is so.

    [thunk.ofType]: resolve unless that was done before. *)
Definition resolveThunk (thunk : OutputType) (resolved : list OutputType)
  : list OutputType :=
  if decide (thunk ∈ resolved) then resolved else resolved ++ [thunk].

(** What [outputType.getTypeName()] resolves on its way.  A wrapper asks its
    inner type.  A thunk that is resolved asks its target; one that is not
    answers with the name it was created with, if any, and otherwise
    resolves and asks the target. *)
Fixpoint getTypeNameResolving (declared : OutputType -> bool)
    (outputType : OutputType) (resolved : list OutputType) : list OutputType :=
  match outputType with
  | NamedTypeComposer _ => resolved
  | NonNullComposer ofType => getTypeNameResolving declared ofType resolved
  | ListComposer ofType => getTypeNameResolving declared ofType resolved
  | ThunkComposer ofType =>
      if decide (outputType ∈ resolved)
      then getTypeNameResolving declared ofType resolved
      else if declared outputType then resolved
      else getTypeNameResolving declared ofType (resolved ++ [outputType])
  end.

(** The loop of [getUnwrappedTC] on a list or non-null composer, standing on
    [tc]: [while (tc is not a named composer) tc = tc.ofType]. *)
Fixpoint unwrapLoop (tc : OutputType) (resolved : list OutputType)
  : list OutputType :=
  match tc with
  | NamedTypeComposer _ => resolved
  | NonNullComposer ofType => unwrapLoop ofType resolved
  | ListComposer ofType => unwrapLoop ofType resolved
  | ThunkComposer ofType => unwrapLoop ofType (resolveThunk tc resolved)
  end.

(** What [outputType.getUnwrappedTC()] resolves. *)
Definition getUnwrappedTCResolving (outputType : OutputType)
    (resolved : list OutputType) : list OutputType :=
  match outputType with
  | NamedTypeComposer _ => resolved
  | NonNullComposer ofType => unwrapLoop ofType resolved
  | ListComposer ofType => unwrapLoop ofType resolved
  | ThunkComposer _ => resolveThunk outputType resolved
  end.

(** [maybeBuildTransform] with the state of the thunks threaded through its
    calls of [getTypeName] and [getUnwrappedTC]: the result, and the thunks
    resolved at the end. *)
Fixpoint maybeBuildTransformLog (declared : OutputType -> bool) (fuel : nat)
    (outputType : OutputType) (resolved : list OutputType)
  : option (result TransformFn * list OutputType) :=
  match fuel with
  | O => None
  | S fuel =>
      let resolved := getTypeNameResolving declared outputType resolved in
      if String.eqb (getTypeName outputType) "String"
      then Some (Ok baseTransform, resolved)
      else
        match outputType with
        | NonNullComposer _ =>
            let currentOutputType := getUnwrappedTC outputType in
            let resolved := getUnwrappedTCResolving outputType resolved in
            maybeBuildTransformLog declared fuel currentOutputType resolved
        | ListComposer _ =>
            let currentOutputType := getUnwrappedTC outputType in
            let resolved := getUnwrappedTCResolving outputType resolved in
            '(r, resolved) ← maybeBuildTransformLog declared fuel currentOutputType resolved;
            Some (subtransform ← r; Ok (listTransform subtransform), resolved)
        | ThunkComposer _ =>
            let currentOutputType := getUnwrappedTC outputType in
            let resolved := getUnwrappedTCResolving outputType resolved in
            maybeBuildTransformLog declared fuel currentOutputType resolved
        | NamedTypeComposer _ => Some (Throw NotAString, resolved)
        end
  end.


(** Whether the first layer that is not a thunk is a list. *)
Fixpoint outerList (outputType : OutputType) : bool :=
  match outputType with
  | NamedTypeComposer _ => false
  | NonNullComposer _ => false
  | ListComposer _ => true
  | ThunkComposer ofType => outerList ofType
  end.

(** ** Two readings of title case, for comparison with [toTitleCase] *)

(** What the pattern [\w\S*] amounts to, read off character by character:
    within every maximal run of non-space characters, the characters before
    the first word character stay, that word character is upper-cased and
    everything behind it in the run is lower-cased.  [seen] says whether the
    run has had its word character. *)
Fixpoint titleCaseRuns (seen : bool) (s : string) : string :=
  match s with
  | EmptyString => EmptyString
  | String c rest =>
      if isSpaceChar c then String c (titleCaseRuns false rest)
      else if seen then String (lowerChar c) (titleCaseRuns true rest)
      else if isWordChar c then String (upperChar c) (titleCaseRuns true rest)
      else String c (titleCaseRuns false rest)
  end.

(** The spec's wording: capitalize the first letter of every maximal run of
    word characters and lower-case the remainder of each such run.
    [inRun] says whether the previous character was a word character. *)
Fixpoint titleCaseWordRuns (inRun : bool) (s : string) : string :=
  match s with
  | EmptyString => EmptyString
  | String c rest =>
      if isWordChar c
      then String (if inRun then lowerChar c else upperChar c)
                  (titleCaseWordRuns true rest)
      else String c (titleCaseWordRuns false rest)
  end.

(** The closed enumeration [TextTransform]. *)
Definition isTextTransform (transform : Value) : Prop :=
  transform = VString "UPPERCASE" \/ transform = VString "lowercase"
  \/ transform = VString "TitleCase".

(** ** Auxiliary notions for the properties *)

(** The last character of a string, to tell ["String"] from a name that ends
    in ["!"]. *)
Fixpoint lastChar (s : string) : option ascii :=
  match s with
  | EmptyString => None
  | String c rest =>
      match rest with
      | EmptyString => Some c
      | String _ _ => lastChar rest
      end
  end.

(** The schema with nothing but the [TextTransform] enum in it. *)
Definition enumOnly : SchemaComposer :=
  injectTextTransformEnum {| composers := []; types := [] |}.

(** A schema with one object type: [Query] with a numeric field that has a
    resolver, a numeric field that has none, and a text field. *)
Definition sampleSchema : SchemaComposer :=
  {| composers :=
       [ObjectTypeComposer "Query"
          (<["total" := {| type := NonNullComposer (NamedTypeComposer "Int");
                           args := None;
                           resolve := Some (fun _ _ _ _ => Ok (VNumber (Num 3))) |}]>
           (<["count" := {| type := NamedTypeComposer "Int";
                            args := None;
                            resolve := None |}]>
            (<["title" := {| type := NamedTypeComposer "String";
                             args := None;
                             resolve := None |}]> ∅)))];
     types := [(ByName "Query", 0)] |}.

(** The field [fieldName0] of the object type at [ref0], configured as
    [fieldConfig0] before the pass, as the pass may leave it at any moment:
    type and arguments as before, the resolver as before or defaulted. *)
Definition framed (ref0 : nat) (fieldName0 : string) (fieldConfig0 : FieldConfig)
    (composer : SchemaComposer) : Prop :=
  exists fieldConfig,
    getField composer ref0 fieldName0 = Some fieldConfig
    /\ type fieldConfig = type fieldConfig0
    /\ args fieldConfig = args fieldConfig0
    /\ (resolve fieldConfig = resolve fieldConfig0
        \/ resolve fieldConfig
           = Some (default (defaultResolver fieldName0) (resolve fieldConfig0))).

(** The same field once [maybeInjectTransform] has been at it. *)
Definition settled (ref0 : nat) (fieldName0 : string) (fieldConfig0 : FieldConfig)
    (composer : SchemaComposer) : Prop :=
  exists fieldConfig,
    getField composer ref0 fieldName0 = Some fieldConfig
    /\ type fieldConfig = type fieldConfig0
    /\ args fieldConfig = args fieldConfig0
    /\ resolve fieldConfig
       = Some (default (defaultResolver fieldName0) (resolve fieldConfig0)).

(** What every step of the pass keeps: the enum is registered and the
    observed field is framed. *)
Definition passInvariant (ref0 : nat) (fieldName0 : string)
    (fieldConfig0 : FieldConfig) (composer : SchemaComposer) : Prop :=
  (exists etc, getETC composer "TextTransform" = Ok etc)
  /\ framed ref0 fieldName0 fieldConfig0 composer.

(** From [resolved] to [resolved']: thunks of [layers] were resolved that
    had not been before, each once. *)
Definition resolvesOnce (layers resolved resolved' : list OutputType) : Prop :=
  exists log,
    resolved' = resolved ++ log
    /\ NoDup log
    /\ forall layer, layer ∈ log -> layer ∈ layers /\ layer ∉ resolved.

(** ** Notions for the further properties *)

(** Two resolvers that settle alike on all inputs. *)
Definition resolverEquiv (r r' : Resolver) : Prop :=
  forall source args context info,
    r source args context info = r' source args context info.

(** Values of one shape: strings of the same length, arrays that have the
    same shape position by position, and otherwise the same value. *)
Inductive sameShape : Value -> Value -> Prop :=
| sameShape_string (s s' : string) :
    String.length s = String.length s' -> sameShape (VString s) (VString s')
| sameShape_array (items items' : list Value) :
    Forall2 sameShape items items' -> sameShape (VArray items) (VArray items')
| sameShape_refl (v : Value) : sameShape v v.

(** Strings and values within the ASCII range: every code unit of the
    string, and of every string that sits in arrays of the value, is below
    128. *)
Fixpoint isAsciiString (s : string) : bool :=
  match s with
  | EmptyString => true
  | String c rest => (nat_of_ascii c <? 128)%nat && isAsciiString rest
  end.

Fixpoint isAsciiValue (value : Value) : bool :=
  match value with
  | VString s => isAsciiString s
  | VArray items => forallb isAsciiValue items
  | _ => true
  end.

(** How many arrays deep the built transform reaches: one if the first
    layer that is not a thunk is a list, none otherwise. *)
Definition transformDepth (outputType : OutputType) : nat :=
  if outerList outputType then 1 else 0.

(** The argument configuration that [injectArgs] stores under
    [textTransform]. *)
Definition textTransformArg (etc : OutputType) : ArgConfig :=
  {| argType := etc;
     description := Some "Transforms string results into different forms" |}.

(** What the schema declares, without arguments and resolvers: the name of
    every composer and, for an object type, the names and types of its
    fields. *)
Inductive TypeShape : Type :=
| ObjectShape (typeName : string) (fieldTypes : gmap string OutputType)
| EnumShape (typeName : string) (values : list string)
| OtherShape (typeName : string).

Definition composerShape (tc : TypeComposer) : TypeShape :=
  match tc with
  | ObjectTypeComposer typeName fields => ObjectShape typeName (type <$> fields)
  | EnumTypeComposer typeName values => EnumShape typeName values
  | OtherTypeComposer typeName => OtherShape typeName
  end.

(** The text field [fieldName0] of the object type at [ref0], configured as
    [fieldConfig0] before the pass, once it has been augmented (any number of
    times) with the transform [transformFn]. *)
Definition augmented (ref0 : nat) (fieldName0 : string) (fieldConfig0 : FieldConfig)
    (transformFn : TransformFn) (composer : SchemaComposer) : Prop :=
  exists fieldConfig replacement,
    getField composer ref0 fieldName0 = Some fieldConfig
    /\ type fieldConfig = type fieldConfig0
    /\ args fieldConfig
       = Some (<["textTransform" := textTransformArg (NamedTypeComposer "TextTransform")]>
                 (default ∅ (args fieldConfig0)))
    /\ resolve fieldConfig = Some replacement
    /\ resolverEquiv replacement
         (transformingResolver
            (default (defaultResolver fieldName0) (resolve fieldConfig0)) transformFn).

(** What every step of the pass keeps for that field: the enum is
    registered under its own name, and the field is as before or augmented. *)
Definition textInvariant (ref0 : nat) (fieldName0 : string)
    (fieldConfig0 : FieldConfig) (transformFn : TransformFn)
    (composer : SchemaComposer) : Prop :=
  getETC composer "TextTransform" = Ok (NamedTypeComposer "TextTransform")
  /\ (getField composer ref0 fieldName0 = Some fieldConfig0
      \/ augmented ref0 fieldName0 fieldConfig0 transformFn composer).

(** The string function that a mode stands for; a mode outside the
    enumeration stands for none, and the identity is put in its place. *)
Definition caseMapping (transform : Value) : string -> string :=
  if strictEqString transform "UPPERCASE" then toUpperCase
  else if strictEqString transform "lowercase" then toLowerCase
  else if strictEqString transform "TitleCase" then toTitleCase
  else fun s => s.

(** [g] on the strings that sit exactly [depth] arrays deep in a value;
    everything else stays. *)
Fixpoint mapAtDepth (depth : nat) (g : string -> string) (v : Value) : Value :=
  match depth with
  | O =>
      match v with
      | VString s => VString (g s)
      | _ => v
      end
  | S depth =>
      match v with
      | VArray items => VArray (map (mapAtDepth depth g) items)
      | _ => v
      end
  end.

(** The mode that a resolver call carries: [args.textTransform] when the
    arguments are an object, [undefined] when they are an array or not of
    type object.  ([null] is of type object and has no properties to read;
    the replacement resolver fails on it.) *)
Definition argsMode (args : Value) : Value :=
  match args with
  | VObject props => lookupProp "textTransform" props
  | _ => VUndefined
  end.

(** * Properties *)

(** ** Strings and the base transform *)

Lemma typeof_string (v : Value) :
  typeof v = "string" <-> exists s, v = VString s.
Proof.
  split.
  - destruct v; simpl; try discriminate. eauto.
  - intros [s ->]. reflexivity.
Qed.

Lemma strictEqString_true (v : Value) (lit : string) :
  strictEqString v lit = true <-> v = VString lit.
Proof.
  destruct v; simpl; split; try discriminate.
  - intros H. apply String.eqb_eq in H. by subst.
  - intros [= ->]. apply String.eqb_refl.
Qed.

Lemma strictEqString_false (v : Value) (lit : string) :
  v <> VString lit -> strictEqString v lit = false.
Proof.
  intros H. destruct (strictEqString v lit) eqn:E; [|done].
  apply strictEqString_true in E. contradiction.
Qed.

Lemma word_not_space (c : ascii) : isWordChar c = true -> isSpaceChar c = false.
Proof.
  unfold isWordChar, isSpaceChar, isUpperChar, isLowerChar, isDigitChar.
  intros H.
  repeat match goal with
         | H : _ || _ = true |- _ => apply orb_true_iff in H; destruct H as [H|H]
         | H : _ && _ = true |- _ => apply andb_true_iff in H; destruct H
         | H : (_ <=? _)%nat = true |- _ => apply Nat.leb_le in H
         | H : (_ =? _)%nat = true |- _ => apply Nat.eqb_eq in H
         end;
    apply orb_false_iff; split;
    try (apply andb_false_iff;
         destruct (Nat.leb_spec 9 (nat_of_ascii c)); [right|left; done];
         apply Nat.leb_gt; lia);
    apply Nat.eqb_neq; lia.
Qed.

Lemma spanNonSpace_length (s run tail : string) :
  spanNonSpace s = (run, tail) -> String.length tail <= String.length s.
Proof.
  revert run tail. induction s as [|c s IH]; simpl; intros run tail H.
  - by inversion H.
  - destruct (isSpaceChar c).
    + inversion H; subst. simpl. lia.
    + destruct (spanNonSpace s) as [run' tail'] eqn:E. inversion H; subst.
      specialize (IH _ _ eq_refl). lia.
Qed.

Lemma titleCaseRuns_span (s run tail : string) :
  spanNonSpace s = (run, tail) ->
  titleCaseRuns true s = toLowerCase run +:+ titleCaseRuns false tail.
Proof.
  revert run tail. induction s as [|c s IH]; simpl; intros run tail H.
  - by inversion H.
  - destruct (isSpaceChar c) eqn:Hc.
    + inversion H; subst. simpl. by rewrite Hc.
    + destruct (spanNonSpace s) as [run' tail'] eqn:E. inversion H; subst.
      change (toLowerCase (String c run') +:+ titleCaseRuns false tail)
        with (String (lowerChar c) (toLowerCase run' +:+ titleCaseRuns false tail)).
      f_equal. by apply IH.
Qed.

Lemma replaceWordNonSpace_titleCaseRuns (fuel : nat) (s : string) :
  String.length s <= fuel ->
  replaceWordNonSpace fuel
    (fun txt => toUpperCase (charAt0 txt) +:+ toLowerCase (substr1 txt)) s
  = titleCaseRuns false s.
Proof.
  revert s. induction fuel as [|fuel IH]; intros s Hlen.
  - destruct s; simpl in *; [done | lia].
  - destruct s as [|c rest]; [done|]. simpl in Hlen. simpl.
    destruct (isWordChar c) eqn:Hw.
    + rewrite (word_not_space c Hw).
      destruct (spanNonSpace rest) as [run tail] eqn:E.
      change (String (upperChar c)
                (toLowerCase run +:+
                 replaceWordNonSpace fuel
                   (fun txt => toUpperCase (charAt0 txt) +:+ toLowerCase (substr1 txt))
                   tail)
              = String (upperChar c) (titleCaseRuns true rest)).
      f_equal. rewrite (titleCaseRuns_span _ _ _ E). f_equal.
      apply IH. apply spanNonSpace_length in E. lia.
    + destruct (isSpaceChar c); f_equal; apply IH; lia.
Qed.

Lemma toTitleCase_titleCaseRuns (s : string) :
  toTitleCase s = titleCaseRuns false s.
Proof. unfold toTitleCase. by apply replaceWordNonSpace_titleCaseRuns. Qed.

Lemma baseTransform_falsy (value transform : Value) :
  truthy transform = false -> baseTransform value transform = Ok value.
Proof. intros H. unfold baseTransform. by rewrite H. Qed.

Lemma baseTransform_not_string (value transform : Value) :
  typeof value <> "string" -> baseTransform value transform = Ok value.
Proof.
  intros H. unfold baseTransform.
  destruct (negb (truthy transform)); [done|]. simpl.
  by destruct value.
Qed.

Lemma not_isTextTransform (transform : Value) :
  ~ isTextTransform transform ->
  strictEqString transform "UPPERCASE" = false
  /\ strictEqString transform "lowercase" = false
  /\ strictEqString transform "TitleCase" = false.
Proof.
  unfold isTextTransform. intros H.
  repeat split; apply strictEqString_false; intros ->; tauto.
Qed.

(** C2 (amended).  On a run-time string the base transform applies the mode:
    UPPERCASE upper-cases every character, lowercase lower-cases every
    character, and TitleCase works on the matches of a word character followed
    by all non-space characters behind it, that is, in every maximal run of
    non-space characters it upper-cases the first word character and
    lower-cases whatever follows it in the run (so a hyphen or an apostrophe
    does not start a new capital).  Without a mode (a falsy one) or on a value
    that is not a string the value comes back unchanged.  The three examples
    of the spec hold. *)
Theorem baseTransform_modes (s : string) :
  baseTransform (VString s) (VString "UPPERCASE") = Ok (VString (toUpperCase s))
  /\ baseTransform (VString s) (VString "lowercase") = Ok (VString (toLowerCase s))
  /\ baseTransform (VString s) (VString "TitleCase")
     = Ok (VString (titleCaseRuns false s))
  /\ (forall value transform,
        truthy transform = false \/ typeof value <> "string" ->
        baseTransform value transform = Ok value)
  /\ baseTransform (VString "hello") (VString "UPPERCASE") = Ok (VString "HELLO")
  /\ baseTransform (VString "HELLO") (VString "lowercase") = Ok (VString "hello")
  /\ baseTransform (VString "the quick fox") (VString "TitleCase")
     = Ok (VString "The Quick Fox").
Proof.
  repeat split; try reflexivity.
  - unfold baseTransform. simpl. by rewrite toTitleCase_titleCaseRuns.
  - intros value transform [H|H].
    + by apply baseTransform_falsy.
    + by apply baseTransform_not_string.
Qed.

Lemma baseTransform_modes_witness :
  baseTransform (VNumber (Num 7)) (VString "TitleCase") = Ok (VNumber (Num 7)).
Proof.
  apply (proj1 (proj2 (proj2 (proj2 (baseTransform_modes "x"))))).
  right. discriminate.
Defined.

(** C2, as stated, fails: the spec's wording capitalizes every maximal run of
    word characters, the code only the first word character of a run of
    non-space characters. *)
Lemma titleCase_word_runs_counterexample :
  baseTransform (VString "foo-bar") (VString "TitleCase") = Ok (VString "Foo-bar")
  /\ titleCaseWordRuns false "foo-bar" = "Foo-Bar"
  /\ baseTransform (VString "foo-bar") (VString "TitleCase")
     <> Ok (VString (titleCaseWordRuns false "foo-bar")).
Proof. repeat split; discriminate. Qed.

(** C5 (amended).  When the value is a run-time string and the mode is a
    truthy value outside UPPERCASE, lowercase, TitleCase, the base transform
    throws [UserInputError] instead of returning.  The transform is a function
    of its two arguments alone: neither the value nor the schema graph is
    written by it. *)
Theorem baseTransform_out_of_range (s : string) (transform : Value) :
  truthy transform = true ->
  ~ isTextTransform transform ->
  baseTransform (VString s) transform = Throw (UserInputError "Value out of range").
Proof.
  intros Ht Hn. apply not_isTextTransform in Hn as (H1 & H2 & H3).
  unfold baseTransform. rewrite Ht, H1, H2, H3. reflexivity.
Qed.

Lemma baseTransform_out_of_range_witness :
  baseTransform (VString "hello") (VString "Shout")
  = Throw (UserInputError "Value out of range").
Proof.
  apply baseTransform_out_of_range; [reflexivity|].
  unfold isTextTransform. intros [H|[H|H]]; discriminate H.
Defined.

(** C5, as stated, fails: a mode outside the enumeration does not make the
    base transform throw when the value is not a string. *)
Lemma out_of_range_non_string_counterexample :
  ~ isTextTransform (VString "Shout")
  /\ baseTransform (VNumber (Num 42)) (VString "Shout") = Ok (VNumber (Num 42)).
Proof.
  split; [|reflexivity].
  unfold isTextTransform. intros [H|[H|H]]; discriminate H.
Qed.

(** C9.  On a value that is not a run-time string the base transform returns
    the value unchanged and does not throw, whatever the mode is: the test on
    the value comes before the [switch] on the mode. *)
Theorem baseTransform_non_string (value transform : Value) :
  typeof value <> "string" ->
  baseTransform value transform = Ok value
  /\ forall e, baseTransform value transform <> Throw e.
Proof.
  intros H. rewrite (baseTransform_not_string _ _ H). split; [done|]. discriminate.
Qed.

Lemma baseTransform_non_string_witness :
  baseTransform (VArray [VString "a"]) (VString "Shout") = Ok (VArray [VString "a"])
  /\ forall e, baseTransform (VArray [VString "a"]) (VString "Shout") <> Throw e.
Proof. apply baseTransform_non_string. discriminate. Defined.

(** ** The transform builder *)

Lemma lastChar_append (s : string) (c : ascii) :
  lastChar (s +:+ String c EmptyString) = Some c.
Proof.
  induction s as [|a s IH]; [done|].
  change (String a s +:+ String c EmptyString)
    with (String a (s +:+ String c EmptyString)).
  destruct s as [|b s]; [done|].
  exact IH.
Qed.

Lemma getTypeName_NonNull (ofType : OutputType) :
  String.eqb (getTypeName (NonNullComposer ofType)) "String" = false.
Proof.
  apply String.eqb_neq. simpl. intros H.
  pose proof (lastChar_append (getTypeName ofType) "!"%char) as L.
  rewrite H in L. discriminate L.
Qed.

Lemma getTypeName_List (ofType : OutputType) :
  String.eqb (getTypeName (ListComposer ofType)) "String" = false.
Proof. reflexivity. Qed.

Lemma maybeBuildTransformFuel_named (fuel : nat) (typeName : string) :
  maybeBuildTransformFuel (S fuel) (NamedTypeComposer typeName)
  = Some (if String.eqb typeName "String" then Ok baseTransform else Throw NotAString).
Proof. simpl. by destruct (String.eqb typeName "String"). Qed.

Lemma maybeBuildTransform_named (typeName : string) :
  maybeBuildTransform (NamedTypeComposer typeName)
  = if String.eqb typeName "String" then Ok baseTransform else Throw NotAString.
Proof. unfold maybeBuildTransform. by rewrite maybeBuildTransformFuel_named. Qed.

(** The source's shape of the function: one test on the type name, then one
    recursive call on the unwrapped type.  The call stack of
    [maybeBuildTransform] is deep enough for it. *)
Lemma maybeBuildTransform_unfold (outputType : OutputType) :
  maybeBuildTransform outputType
  = if String.eqb (getTypeName outputType) "String" then Ok baseTransform
    else
      match outputType with
      | NonNullComposer _ => maybeBuildTransform (getUnwrappedTC outputType)
      | ListComposer _ =>
          subtransform ← maybeBuildTransform (getUnwrappedTC outputType);
          Ok (listTransform subtransform)
      | ThunkComposer _ => maybeBuildTransform (getUnwrappedTC outputType)
      | NamedTypeComposer _ => Throw NotAString
      end.
Proof.
  destruct outputType as [n|t|t|t].
  - apply maybeBuildTransform_named.
  - rewrite getTypeName_NonNull. unfold maybeBuildTransform.
    cbn [wrapDepth maybeBuildTransformFuel]. rewrite getTypeName_NonNull.
    reflexivity.
  - rewrite getTypeName_List. unfold maybeBuildTransform.
    cbn [wrapDepth maybeBuildTransformFuel]. rewrite getTypeName_List.
    cbn [getUnwrappedTC wrapDepth getTypeName].
    by destruct (String.eqb (namedTypeOf t) "String").
  - unfold maybeBuildTransform.
    cbn [wrapDepth maybeBuildTransformFuel].
    by destruct (String.eqb (getTypeName (ThunkComposer t)) "String").
Qed.

Lemma maybeBuildTransform_NonNull (ofType : OutputType) :
  maybeBuildTransform (NonNullComposer ofType)
  = maybeBuildTransform (NamedTypeComposer (namedTypeOf ofType)).
Proof. rewrite maybeBuildTransform_unfold, getTypeName_NonNull. reflexivity. Qed.

Lemma maybeBuildTransform_List (ofType : OutputType) :
  maybeBuildTransform (ListComposer ofType)
  = subtransform ← maybeBuildTransform (NamedTypeComposer (namedTypeOf ofType));
    Ok (listTransform subtransform).
Proof. rewrite maybeBuildTransform_unfold, getTypeName_List. reflexivity. Qed.

Lemma maybeBuildTransform_Thunk (ofType : OutputType) :
  maybeBuildTransform (ThunkComposer ofType) = maybeBuildTransform ofType.
Proof.
  rewrite (maybeBuildTransform_unfold (ThunkComposer _)). simpl.
  destruct (String.eqb (getTypeName ofType) "String") eqn:E; [|done].
  by rewrite maybeBuildTransform_unfold, E.
Qed.

(** The builder in closed form: it succeeds exactly on the types whose named
    type is [String], and what it returns is the base transform, under one
    list closure if the first layer that is not a thunk is a list. *)
Lemma maybeBuildTransform_closed_form (outputType : OutputType) :
  maybeBuildTransform outputType
  = if String.eqb (namedTypeOf outputType) "String"
    then Ok (if outerList outputType then listTransform baseTransform
             else baseTransform)
    else Throw NotAString.
Proof.
  induction outputType as [n|t IH|t IH|t IH]; simpl namedTypeOf; simpl outerList.
  - apply maybeBuildTransform_named.
  - by rewrite maybeBuildTransform_NonNull, maybeBuildTransform_named.
  - rewrite maybeBuildTransform_List, maybeBuildTransform_named.
    by destruct (String.eqb (namedTypeOf t) "String").
  - by rewrite maybeBuildTransform_Thunk.
Qed.

Lemma maybeBuildTransform_Ok (outputType : OutputType) (transformFn : TransformFn) :
  maybeBuildTransform outputType = Ok transformFn ->
  namedTypeOf outputType = "String"
  /\ transformFn = (if outerList outputType then listTransform baseTransform
                    else baseTransform).
Proof.
  rewrite maybeBuildTransform_closed_form.
  destruct (String.eqb (namedTypeOf outputType) "String") eqn:E; [|discriminate].
  intros [= <-]. split; [by apply String.eqb_eq|done].
Qed.

(** The builder succeeds exactly on the types whose named type is [String],
    and signals [NotAString] on all others. *)
Lemma maybeBuildTransform_text (outputType : OutputType) :
  namedTypeOf outputType = "String" ->
  exists transform, maybeBuildTransform outputType = Ok transform.
Proof.
  intros H. rewrite maybeBuildTransform_closed_form, H. by eexists.
Qed.

Lemma maybeBuildTransform_not_text (outputType : OutputType) :
  namedTypeOf outputType <> "String" ->
  maybeBuildTransform outputType = Throw NotAString.
Proof.
  intros H. rewrite maybeBuildTransform_closed_form.
  apply String.eqb_neq in H. by rewrite H.
Qed.

Lemma maybeBuildTransform_cases (outputType : OutputType) :
  (exists transform, maybeBuildTransform outputType = Ok transform)
  \/ maybeBuildTransform outputType = Throw NotAString.
Proof.
  destruct (decide (namedTypeOf outputType = "String")).
  - left. by apply maybeBuildTransform_text.
  - right. by apply maybeBuildTransform_not_text.
Qed.

(** C7.  The wrappers that should add nothing to the transform.  A deferred
    reference does add nothing: the transform built for it is the one built
    for its target.  A non-null wrapper does not hand on the transform of its
    inner type: [getUnwrappedTC] takes the builder from the wrapper straight
    to the named type, so what is built for [NonNull(t)] is what is built for
    the named type of [t].  For [t = [String]] the two differ: [[String]]
    gets the list closure, [[String]!] the base transform, which leaves
    arrays as they are. *)
Theorem nonnull_list_gets_base_transform :
  (forall t, maybeBuildTransform (ThunkComposer t) = maybeBuildTransform t)
  /\ (forall t, maybeBuildTransform (NonNullComposer t)
                = maybeBuildTransform (NamedTypeComposer (namedTypeOf t)))
  /\ maybeBuildTransform (ListComposer (NamedTypeComposer "String"))
     = Ok (listTransform baseTransform)
  /\ maybeBuildTransform (NonNullComposer (ListComposer (NamedTypeComposer "String")))
     = Ok baseTransform
  /\ listTransform baseTransform (VArray [VString "ann"]) (VString "UPPERCASE")
     = Ok (VArray [VString "ANN"])
  /\ baseTransform (VArray [VString "ann"]) (VString "UPPERCASE")
     = Ok (VArray [VString "ann"]).
Proof.
  split; [apply maybeBuildTransform_Thunk|].
  split; [apply maybeBuildTransform_NonNull|].
  repeat split.
Qed.

(** ** The list transform *)

Lemma mapM_Ok {A B : Type} (f : A -> result B) (l : list A) (k : list B) :
  mapM f l = Ok k <-> Forall2 (fun x y => f x = Ok y) l k.
Proof.
  revert k. induction l as [|x l IH]; intros k; simpl.
  - split.
    + intros [= <-]. constructor.
    + intros H. by inversion H.
  - split.
    + destruct (f x) as [y|e] eqn:Hx; simpl; [|discriminate].
      destruct (mapM f l) as [k'|e] eqn:Hl; simpl; [|discriminate].
      intros [= <-]. constructor; [done|]. by apply IH.
    + intros H. inversion H as [|? y ? k' Hx Hl]; subst.
      apply IH in Hl. rewrite Hx. simpl. rewrite Hl. reflexivity.
Qed.

Lemma mapM_total {A B : Type} (f : A -> result B) (l : list A) :
  (forall x, x ∈ l -> exists y, f x = Ok y) -> exists k, mapM f l = Ok k.
Proof.
  induction l as [|x l IH]; intros H; simpl.
  - by eexists.
  - destruct (H x) as [y Hy]; [by left|].
    destruct IH as [k Hk]; [intros z Hz; apply H; by right|].
    rewrite Hy. simpl. rewrite Hk. by eexists.
Qed.

Lemma listTransform_unchanged (subtransform : TransformFn) (currentValue transform : Value) :
  truthy transform = false \/ isArray currentValue = false ->
  listTransform subtransform currentValue transform = Ok currentValue.
Proof.
  intros H. unfold listTransform.
  destruct (truthy transform); simpl.
  - destruct H as [H|H]; [discriminate|]. by rewrite H.
  - reflexivity.
Qed.

Lemma listTransform_array (subtransform : TransformFn) (items : list Value)
    (transform result : Value) :
  truthy transform = true ->
  listTransform subtransform (VArray items) transform = Ok result
  <-> exists mapped, result = VArray mapped
      /\ Forall2 (fun x y => subtransform x transform = Ok y) items mapped.
Proof.
  intros Ht. unfold listTransform. rewrite Ht. simpl. split.
  - destruct (mapM _ items) as [mapped|e] eqn:E; simpl; [|discriminate].
    intros [= <-]. exists mapped. split; [done|]. by apply mapM_Ok.
  - intros (mapped & -> & H). apply mapM_Ok in H. by rewrite H.
Qed.

Lemma baseTransform_enum_total (value transform : Value) :
  truthy transform = false \/ isTextTransform transform ->
  exists result, baseTransform value transform = Ok result.
Proof.
  intros [H|H].
  - rewrite baseTransform_falsy by done. by eexists.
  - destruct (decide (typeof value = "string")) as [Hs|Hs].
    + apply typeof_string in Hs as [s ->].
      destruct H as [-> | [-> | ->]]; by eexists.
    + rewrite baseTransform_not_string by done. by eexists.
Qed.

Lemma listTransform_total (subtransform : TransformFn) (transform : Value) :
  (forall value, exists result, subtransform value transform = Ok result) ->
  forall value, exists result, listTransform subtransform value transform = Ok result.
Proof.
  intros Hsub value. unfold listTransform.
  destruct (negb (truthy transform) || negb (isArray value)); [by eexists|].
  destruct value; try by eexists.
  destruct (mapM_total (fun x => subtransform x transform) items) as [k Hk].
  { intros x _. apply Hsub. }
  rewrite Hk. by eexists.
Qed.

Lemma built_transform_enum_total (outputType : OutputType) (transformFn : TransformFn)
    (value transform : Value) :
  truthy transform = false \/ isTextTransform transform ->
  maybeBuildTransform outputType = Ok transformFn ->
  exists result, transformFn value transform = Ok result.
Proof.
  intros Hmode Hbuild. apply maybeBuildTransform_Ok in Hbuild as [_ ->].
  destruct (outerList outputType).
  - apply listTransform_total. intros v. by apply baseTransform_enum_total.
  - by apply baseTransform_enum_total.
Qed.

(** C3.  The transform built for a list wrapper.  The sub-transform that the
    closure maps over the elements is the one built for
    [outputType.getUnwrappedTC()], and that is the named type of the list,
    not its inner type.  On [[String]] the two are the same and
    ["ann", null, "BOB"] is lower-cased to ["ann", null, "bob"].  On
    [[[String]]] the elements are arrays and the base transform leaves them
    as they are, where the transform of the inner type [[String]] would
    have mapped them; and [[String]!], the type of the example, gets the base
    transform and no list closure at all, so the array comes back
    unchanged. *)
Theorem nested_list_elements_unchanged :
  (forall ofType,
     maybeBuildTransform (ListComposer ofType)
     = subtransform ← maybeBuildTransform (getUnwrappedTC (ListComposer ofType));
       Ok (listTransform subtransform))
  /\ (forall ofType, getUnwrappedTC (ListComposer ofType)
                     = NamedTypeComposer (namedTypeOf ofType))
  /\ (maybeBuildTransform (ListComposer (NamedTypeComposer "String"))
      = Ok (listTransform baseTransform)
      /\ listTransform baseTransform
           (VArray [VString "ann"; VNull; VString "BOB"]) (VString "lowercase")
         = Ok (VArray [VString "ann"; VNull; VString "bob"]))
  /\ (maybeBuildTransform (ListComposer (ListComposer (NamedTypeComposer "String")))
      = Ok (listTransform baseTransform)
      /\ listTransform baseTransform
           (VArray [VArray [VString "ann"]]) (VString "UPPERCASE")
         = Ok (VArray [VArray [VString "ann"]])
      /\ listTransform (listTransform baseTransform)
           (VArray [VArray [VString "ann"]]) (VString "UPPERCASE")
         = Ok (VArray [VArray [VString "ANN"]]))
  /\ (maybeBuildTransform (NonNullComposer (ListComposer (NamedTypeComposer "String")))
      = Ok baseTransform
      /\ baseTransform
           (VArray [VString "ann"; VNull; VString "BOB"]) (VString "lowercase")
         = Ok (VArray [VString "ann"; VNull; VString "BOB"])).
Proof.
  split.
  { intros ofType. by rewrite maybeBuildTransform_unfold, getTypeName_List. }
  repeat split.
Qed.

(** ** Modes of the enumeration never make a transform throw *)

(** C10.  With a mode that is absent ([undefined], or any other falsy value)
    or one of UPPERCASE, lowercase, TitleCase, the base transform returns on
    every value, and so does every transform the builder composes from it
    over non-null, list and deferred layers: nothing is thrown. *)
Theorem enum_modes_never_throw (outputType : OutputType) (transformFn : TransformFn)
    (value transform : Value) :
  truthy transform = false \/ isTextTransform transform ->
  maybeBuildTransform outputType = Ok transformFn ->
  (exists result, baseTransform value transform = Ok result)
  /\ (exists result, transformFn value transform = Ok result).
Proof.
  intros Hmode Hbuild. split.
  - by apply baseTransform_enum_total.
  - by eapply built_transform_enum_total.
Qed.

Lemma enum_modes_never_throw_witness :
  (exists result,
     baseTransform (VArray [VArray [VString "a b"]]) (VString "TitleCase") = Ok result)
  /\ (exists result,
        listTransform baseTransform
          (VArray [VArray [VString "a b"]]) (VString "TitleCase") = Ok result).
Proof.
  apply (enum_modes_never_throw
           (ThunkComposer (ListComposer (ThunkComposer (ListComposer
              (NonNullComposer (NamedTypeComposer "String"))))))).
  - right. unfold isTextTransform. auto.
  - reflexivity.
Defined.

(** ** Termination of the transform builder, and the thunks it resolves *)

Lemma thunkLayers_depth (outputType layer : OutputType) :
  layer ∈ thunkLayers outputType -> wrapDepth layer <= wrapDepth outputType.
Proof.
  induction outputType as [n|t IH|t IH|t IH]; simpl; intros H.
  - by apply elem_of_nil in H.
  - specialize (IH H). lia.
  - specialize (IH H). lia.
  - apply elem_of_cons in H as [->|H]; [done|]. specialize (IH H). lia.
Qed.

Lemma thunkLayers_NoDup (outputType : OutputType) : NoDup (thunkLayers outputType).
Proof.
  induction outputType as [n|t IH|t IH|t IH]; simpl; try done.
  - constructor.
  - constructor; [|done]. intros H. apply thunkLayers_depth in H. simpl in H. lia.
Qed.


Lemma resolvesOnce_refl (layers resolved : list OutputType) :
  resolvesOnce layers resolved resolved.
Proof.
  exists []. rewrite app_nil_r. split; [done|]. split; [constructor|].
  intros layer H. by apply elem_of_nil in H.
Qed.

Lemma resolvesOnce_trans (layers resolved resolved' resolved'' : list OutputType) :
  resolvesOnce layers resolved resolved' ->
  resolvesOnce layers resolved' resolved'' ->
  resolvesOnce layers resolved resolved''.
Proof.
  intros (log1 & -> & N1 & H1) (log2 & -> & N2 & H2).
  exists (log1 ++ log2). rewrite app_assoc. split; [done|]. split.
  - apply NoDup_app. split; [done|]. split; [|done].
    intros layer Hl1 Hl2. apply H2 in Hl2 as [_ Hl2].
    apply Hl2. apply elem_of_app. by right.
  - intros layer [H|H]%elem_of_app.
    + by apply H1.
    + apply H2 in H as [Hin Hout]. split; [done|].
      intros Hr. apply Hout. apply elem_of_app. by left.
Qed.

Lemma resolvesOnce_mono (layers layers' resolved resolved' : list OutputType) :
  (forall layer, layer ∈ layers -> layer ∈ layers') ->
  resolvesOnce layers resolved resolved' ->
  resolvesOnce layers' resolved resolved'.
Proof.
  intros Hsub (log & -> & N & H). exists log. split; [done|]. split; [done|].
  intros layer Hl. apply H in Hl as [Hin Hout]. auto.
Qed.


Lemma resolvesOnce_push (layers resolved : list OutputType) (thunk : OutputType) :
  thunk ∈ layers -> thunk ∉ resolved ->
  resolvesOnce layers resolved (resolved ++ [thunk]).
Proof.
  intros Hin Hout. exists [thunk]. split; [done|]. split.
  - apply NoDup_singleton.
  - intros layer ->%list_elem_of_singleton. done.
Qed.

Lemma resolveThunk_once (layers resolved : list OutputType) (thunk : OutputType) :
  thunk ∈ layers -> resolvesOnce layers resolved (resolveThunk thunk resolved).
Proof.
  intros Hin. unfold resolveThunk. destruct (decide (thunk ∈ resolved)).
  - apply resolvesOnce_refl.
  - by apply resolvesOnce_push.
Qed.




Lemma unwrapLoop_once (tc : OutputType) (resolved : list OutputType) :
  resolvesOnce (thunkLayers tc) resolved (unwrapLoop tc resolved).
Proof.
  revert resolved.
  induction tc as [n|t IH|t IH|t IH]; intros resolved;
    cbn [unwrapLoop thunkLayers]; try done.
  - apply resolvesOnce_refl.
  - eapply resolvesOnce_trans.
    + apply resolveThunk_once. by left.
    + eapply resolvesOnce_mono; [|apply IH]. intros layer H. by right.
Qed.


Lemma getUnwrappedTCResolving_once (outputType : OutputType)
    (resolved : list OutputType) :
  resolvesOnce (thunkLayers outputType) resolved
    (getUnwrappedTCResolving outputType resolved).
Proof.
  destruct outputType as [n|t|t|t]; cbn [getUnwrappedTCResolving thunkLayers].
  - apply resolvesOnce_refl.
  - apply unwrapLoop_once.
  - apply unwrapLoop_once.
  - apply resolveThunk_once. by left.
Qed.






(** Runs of the builder.  Text wrapped twice in non-null: base transform,
    nothing to resolve.  A list of deferred references to [User]: the thunk
    is resolved once, whether it was created with its name (then by
    [getUnwrappedTC] on the list) or not (then by the test on the name of
    the list), and the [ThunkComposer] branch is never entered.  A deferred
    reference to String that was created without a name: resolved once, by
    the test on the name. *)
Example maybeBuildTransformLog_runs :
  (maybeBuildTransformLog (fun _ => false) 3
     (NonNullComposer (NonNullComposer (NamedTypeComposer "String"))) []
   = Some (Ok baseTransform, []))
  /\ (maybeBuildTransformLog (fun _ => false) 3
        (ListComposer (ThunkComposer (NamedTypeComposer "User"))) []
      = Some (Throw NotAString, [ThunkComposer (NamedTypeComposer "User")]))
  /\ (maybeBuildTransformLog (fun _ => true) 3
        (ListComposer (ThunkComposer (NamedTypeComposer "User"))) []
      = Some (Throw NotAString, [ThunkComposer (NamedTypeComposer "User")]))
  /\ (maybeBuildTransformLog (fun _ => false) 2
        (ThunkComposer (NamedTypeComposer "String")) []
      = Some (Ok baseTransform, [ThunkComposer (NamedTypeComposer "String")])).
Proof. repeat split. Qed.


(** ** Rewriting one field *)

Lemma installDefaultResolver_type (fieldName : string) (fieldConfig : FieldConfig) :
  type (installDefaultResolver fieldName fieldConfig) = type fieldConfig.
Proof. unfold installDefaultResolver. by destruct (resolve fieldConfig). Qed.

Lemma installDefaultResolver_args (fieldName : string) (fieldConfig : FieldConfig) :
  args (installDefaultResolver fieldName fieldConfig) = args fieldConfig.
Proof. unfold installDefaultResolver. by destruct (resolve fieldConfig). Qed.

Lemma installDefaultResolver_resolve (fieldName : string) (fieldConfig : FieldConfig) :
  resolve (installDefaultResolver fieldName fieldConfig)
  = Some (default (defaultResolver fieldName) (resolve fieldConfig)).
Proof.
  unfold installDefaultResolver. by destruct (resolve fieldConfig) eqn:E.
Qed.

(** What [getETC] throws is a plain [Error], never the private signal. *)
Lemma getETC_throws_Error (composer : SchemaComposer) (name : string) (e : exn) :
  getETC composer name = Throw e -> instanceofNotAString e = false.
Proof.
  unfold getETC.
  destruct (mapGet (ByName name) (types composer)) as [ref|];
    [destruct (composers composer !! ref) as [[| |]|]|];
    intros H; by (discriminate H || injection H as <-).
Qed.

(** A field whose type has no transform: only the default resolver is
    installed, and the signal ends in the [catch]. *)
Lemma maybeInjectTransform_skip (fieldName : string) (fieldConfig : FieldConfig)
    (schemaComposer : SchemaComposer) :
  maybeBuildTransform (type fieldConfig) = Throw NotAString ->
  maybeInjectTransform fieldName fieldConfig schemaComposer
  = (installDefaultResolver fieldName fieldConfig, Ok tt).
Proof.
  intros H. unfold maybeInjectTransform, tryInjectTransform.
  by rewrite installDefaultResolver_type, H.
Qed.

(** A field whose type has the transform [transformFn], in a schema that
    has the enum registered. *)
Lemma maybeInjectTransform_inject (fieldName : string) (fieldConfig : FieldConfig)
    (schemaComposer : SchemaComposer) (transformFn : TransformFn) (etc : OutputType) :
  maybeBuildTransform (type fieldConfig) = Ok transformFn ->
  getETC schemaComposer "TextTransform" = Ok etc ->
  maybeInjectTransform fieldName fieldConfig schemaComposer
  = ({| type := type fieldConfig;
        args := Some (<["textTransform" :=
                         {| argType := etc;
                            description :=
                              Some "Transforms string results into different forms" |}]>
                       (default ∅ (args fieldConfig)));
        resolve := Some (transformingResolver
                           (default (defaultResolver fieldName) (resolve fieldConfig))
                           transformFn) |},
     Ok tt).
Proof.
  intros Hb He. unfold maybeInjectTransform, tryInjectTransform, injectArgs.
  rewrite installDefaultResolver_type, Hb, He.
  unfold installDefaultResolver.
  destruct (resolve fieldConfig) eqn:E; unfold setResolve, setArgs; simpl;
    rewrite ?E; reflexivity.
Qed.

(** The same field in a schema without the enum: [getETC] throws inside the
    [try] block, and the [catch] throws it again. *)
Lemma maybeInjectTransform_rethrow (fieldName : string) (fieldConfig : FieldConfig)
    (schemaComposer : SchemaComposer) (transformFn : TransformFn) (e : exn) :
  maybeBuildTransform (type fieldConfig) = Ok transformFn ->
  getETC schemaComposer "TextTransform" = Throw e ->
  (maybeInjectTransform fieldName fieldConfig schemaComposer).2 = Throw e.
Proof.
  intros Hb He. unfold maybeInjectTransform, tryInjectTransform, injectArgs.
  rewrite installDefaultResolver_type, Hb, He. simpl.
  by rewrite (getETC_throws_Error _ _ _ He).
Qed.

Lemma tryInjectTransform_throws (fieldConfig : FieldConfig)
    (schemaComposer : SchemaComposer) (e : exn) :
  (tryInjectTransform fieldConfig schemaComposer).2 = Throw e ->
  (e = NotAString /\ maybeBuildTransform (type fieldConfig) = Throw NotAString)
  \/ (instanceofNotAString e = false
      /\ getETC schemaComposer "TextTransform" = Throw e).
Proof.
  unfold tryInjectTransform, injectArgs.
  destruct (maybeBuildTransform_cases (type fieldConfig)) as [[f Hf]|Hf]; rewrite Hf.
  - destruct (getETC schemaComposer "TextTransform") as [etc|e'] eqn:He; simpl.
    + discriminate.
    + intros [= ->]. right. split; [|done]. by eapply getETC_throws_Error.
  - simpl. intros [= <-]. by left.
Qed.

(** ** The replacement resolver *)

(** Without a mode every built transform is the identity. *)
Lemma built_transform_no_mode (outputType : OutputType) (transformFn : TransformFn)
    (value transform : Value) :
  maybeBuildTransform outputType = Ok transformFn ->
  truthy transform = false ->
  transformFn value transform = Ok value.
Proof.
  intros Hb Ht. apply maybeBuildTransform_Ok in Hb as [_ ->].
  destruct (outerList outputType).
  - apply listTransform_unchanged. by left.
  - by apply baseTransform_falsy.
Qed.

(** The identity law where it holds: with arguments that are not of type
    object, or that are an object or array without a truthy [textTransform],
    the replacement resolver settles as the original one does. *)
Lemma transformingResolver_no_mode (outputType : OutputType) (transformFn : TransformFn)
    (resolver : Resolver) (source args context info : Value) :
  maybeBuildTransform outputType = Ok transformFn ->
  typeof args <> "object"
  \/ (exists mode, getProp args "textTransform" = Ok mode /\ truthy mode = false) ->
  transformingResolver resolver transformFn source args context info
  = resolver source args context info.
Proof.
  intros Hb Hargs. unfold transformingResolver.
  destruct (resolver source args context info) as [value|e]; [|done]. simpl.
  destruct Hargs as [Hargs|(mode & Hm & Ht)].
  - apply String.eqb_neq in Hargs. rewrite Hargs. simpl.
    by eapply built_transform_no_mode.
  - destruct (String.eqb (typeof args) "object").
    + rewrite Hm. simpl. by eapply built_transform_no_mode.
    + simpl. by eapply built_transform_no_mode.
Qed.

(** C4.  The identity law breaks when the replacement resolver is called with
    [null] as arguments: [typeof null] is ["object"], so the wrapper reads
    [args['textTransform']] off [null] and fails with a [TypeError], where the
    original resolver gives ["hello"]. *)
Theorem replacement_resolver_null_args :
  let original : Resolver := fun _ _ _ _ => Ok (VString "hello") in
  let fieldConfig :=
    {| type := NamedTypeComposer "String"; args := None; resolve := Some original |} in
  exists replacement,
    resolve (maybeInjectTransform "greeting" fieldConfig enumOnly).1 = Some replacement
    /\ original VNull VNull VNull VNull = Ok (VString "hello")
    /\ replacement VNull VNull VNull VNull
       = Throw (TypeError "Cannot read properties of null or undefined").
Proof.
  intros original fieldConfig.
  rewrite (maybeInjectTransform_inject "greeting" fieldConfig enumOnly baseTransform
             (NamedTypeComposer "TextTransform") eq_refl eq_refl).
  eexists. split; [reflexivity|]. split; reflexivity.
Qed.

(** ** The registry and the store *)

Lemma mapGet_mapSet (key : TypeKey) (ref : nat) (entries : list (TypeKey * nat)) :
  mapGet key (mapSet key ref entries) = Some ref.
Proof.
  induction entries as [|[k r] entries IH]; simpl.
  - by rewrite decide_True.
  - destruct (decide (k = key)) as [->|Hk]; simpl.
    + by rewrite decide_True.
    + by rewrite decide_False.
Qed.

Lemma mapSet_elem_of (key k : TypeKey) (ref r : nat) (entries : list (TypeKey * nat)) :
  (k, r) ∈ entries -> k <> key -> (k, r) ∈ mapSet key ref entries.
Proof.
  intros Hin Hk. induction entries as [|[k' r'] entries IH]; simpl.
  - by apply elem_of_nil in Hin.
  - apply elem_of_cons in Hin as [[= <- <-]|Hin].
    + rewrite decide_False by done. by left.
    + destruct (decide (k' = key)); right; auto.
Qed.

Lemma getETC_injectTextTransformEnum (composer : SchemaComposer) :
  getETC (injectTextTransformEnum composer) "TextTransform"
  = Ok (NamedTypeComposer "TextTransform").
Proof.
  unfold getETC, injectTextTransformEnum, addEnum. simpl.
  rewrite mapGet_mapSet. by rewrite list_lookup_middle.
Qed.

Lemma getField_injectTextTransformEnum (composer : SchemaComposer) (ref : nat)
    (fieldName : string) (fieldConfig : FieldConfig) :
  getField composer ref fieldName = Some fieldConfig ->
  getField (injectTextTransformEnum composer) ref fieldName = Some fieldConfig.
Proof.
  unfold getField, injectTextTransformEnum, addEnum. simpl.
  destruct (composers composer !! ref) as [tc|] eqn:E; [|done].
  intros H. by rewrite (lookup_app_l_Some _ _ _ _ E).
Qed.

Lemma getField_putField_same (composer : SchemaComposer) (ref : nat)
    (fieldName : string) (fieldConfig : FieldConfig) :
  is_Some (getField composer ref fieldName) ->
  getField (putField composer ref fieldName fieldConfig) ref fieldName
  = Some fieldConfig.
Proof.
  unfold getField, putField. intros [fc H].
  destruct (composers composer !! ref) as [[tn fields| |]|] eqn:E; try done.
  simpl. rewrite list_lookup_insert_eq by (by eapply lookup_lt_Some).
  apply lookup_insert_eq.
Qed.

Lemma getField_putField_other (composer : SchemaComposer) (ref ref' : nat)
    (fieldName fieldName' : string) (fieldConfig : FieldConfig) :
  (ref', fieldName') <> (ref, fieldName) ->
  getField (putField composer ref fieldName fieldConfig) ref' fieldName'
  = getField composer ref' fieldName'.
Proof.
  unfold getField, putField. intros Hne.
  destruct (composers composer !! ref) as [[tn fields| |]|] eqn:E; try done.
  simpl. destruct (decide (ref' = ref)) as [->|Hr].
  - rewrite list_lookup_insert_eq by (by eapply lookup_lt_Some). rewrite E.
    apply lookup_insert_ne. congruence.
  - by rewrite list_lookup_insert_ne.
Qed.

Lemma getETC_putField (composer : SchemaComposer) (ref : nat) (fieldName : string)
    (fieldConfig : FieldConfig) (name : string) :
  getETC (putField composer ref fieldName fieldConfig) name = getETC composer name.
Proof.
  unfold getETC, putField.
  destruct (composers composer !! ref) as [[tn fields| |]|] eqn:E; try done.
  simpl. destruct (mapGet (ByName name) (types composer)) as [r|]; [|done].
  destruct (decide (r = ref)) as [->|Hr].
  - rewrite list_lookup_insert_eq by (by eapply lookup_lt_Some). by rewrite E.
  - by rewrite list_lookup_insert_ne.
Qed.

Lemma getField_fields (composer : SchemaComposer) (ref : nat) (fieldName : string)
    (fieldConfig : FieldConfig) :
  getField composer ref fieldName = Some fieldConfig ->
  exists typeName fields,
    composers composer !! ref = Some (ObjectTypeComposer typeName fields)
    /\ fields !! fieldName = Some fieldConfig.
Proof.
  unfold getField.
  destruct (composers composer !! ref) as [[tn fields| |]|]; try done. eauto.
Qed.

(** ** Loops *)

Lemma forEach_invariant {A S : Type} (body : A -> S -> S * result unit)
    (Inv : S -> Prop) (l : list A) (s : S) :
  Inv s ->
  (forall x s, x ∈ l -> Inv s -> (body x s).2 = Ok tt /\ Inv (body x s).1) ->
  (forEach body l s).2 = Ok tt /\ Inv (forEach body l s).1.
Proof.
  revert s. induction l as [|x l IH]; intros s Hs Hstep; simpl; [done|].
  destruct (Hstep x s) as [Hr Hi]; [by left | done |].
  destruct (body x s) as [s' [[]|e]]; simpl in *; [|discriminate].
  apply IH; [done|]. intros y s'' Hy. apply Hstep. by right.
Qed.

Lemma forEach_reaches {A S : Type} (body : A -> S -> S * result unit)
    (Inv Q : S -> Prop) (l : list A) (s : S) (x0 : A) :
  x0 ∈ l ->
  Inv s ->
  (forall x s, x ∈ l -> Inv s -> (body x s).2 = Ok tt /\ Inv (body x s).1) ->
  (forall s, Inv s -> Q (body x0 s).1) ->
  (forall x s, x ∈ l -> Inv s -> Q s -> Q (body x s).1) ->
  Q (forEach body l s).1.
Proof.
  revert s. induction l as [|x l IH]; intros s Hx0 Hs Hstep Hhit Hkeep.
  - by apply elem_of_nil in Hx0.
  - simpl. destruct (Hstep x s) as [Hr Hi]; [by left | done |].
    apply elem_of_cons in Hx0 as [<-|Hx0].
    + specialize (Hhit s Hs).
      destruct (body x0 s) as [s' [[]|e]]; simpl in *; [|discriminate].
      assert (Inv' : Inv s' /\ Q s') by done.
      destruct (forEach_invariant body (fun s => Inv s /\ Q s) l s' Inv') as [_ [_ HQ]];
        [|done].
      intros y s'' Hy [Hi' HQ']. destruct (Hstep y s'') as [? ?]; [by right | done |].
      repeat split; try done. apply Hkeep; [by right | done | done].
    + destruct (body x s) as [s' [[]|e]]; simpl in *; [|discriminate].
      apply IH; try done.
      * intros y s'' Hy. apply Hstep. by right.
      * intros y s'' Hy. apply Hkeep. by right.
Qed.

(** ** The rewrite pass and a field without text *)

Lemma maybeInjectTransform_ready (fieldName : string) (fieldConfig : FieldConfig)
    (composer : SchemaComposer) (etc : OutputType) :
  getETC composer "TextTransform" = Ok etc ->
  (maybeInjectTransform fieldName fieldConfig composer).2 = Ok tt.
Proof.
  intros He.
  destruct (maybeBuildTransform_cases (type fieldConfig)) as [[f Hf]|Hf].
  - by rewrite (maybeInjectTransform_inject _ _ _ _ _ Hf He).
  - by rewrite (maybeInjectTransform_skip _ _ _ Hf).
Qed.

Lemma rewriteField_unfold (ref : nat) (fieldName : string) (composer : SchemaComposer)
    (fieldConfig : FieldConfig) :
  getField composer ref fieldName = Some fieldConfig ->
  rewriteField ref fieldName composer
  = (putField composer ref fieldName
       (maybeInjectTransform fieldName fieldConfig composer).1,
     (maybeInjectTransform fieldName fieldConfig composer).2).
Proof.
  intros H. unfold rewriteField. rewrite H.
  by destruct (maybeInjectTransform fieldName fieldConfig composer).
Qed.

(** C6.  The [NotAString] signal of the transform builder never leaves
    [maybeInjectTransform]: the rewrite of a field never ends in it, and when
    the builder raises it the field is skipped (the call returns normally and
    the field keeps its type and arguments and gets no replacement resolver),
    the loop of the driver goes on and no other field is touched.  Every
    other exception of the [try] block is thrown on to the caller. *)
Theorem NotAString_is_caught (fieldName : string) (fieldConfig : FieldConfig)
    (schemaComposer : SchemaComposer) :
  (maybeInjectTransform fieldName fieldConfig schemaComposer).2 <> Throw NotAString
  /\ (maybeBuildTransform (type fieldConfig) = Throw NotAString ->
      maybeInjectTransform fieldName fieldConfig schemaComposer
      = (installDefaultResolver fieldName fieldConfig, Ok tt))
  /\ (forall ref,
        maybeBuildTransform (type fieldConfig) = Throw NotAString ->
        getField schemaComposer ref fieldName = Some fieldConfig ->
        (rewriteField ref fieldName schemaComposer).2 = Ok tt
        /\ forall ref' fieldName',
             (ref', fieldName') <> (ref, fieldName) ->
             getField (rewriteField ref fieldName schemaComposer).1 ref' fieldName'
             = getField schemaComposer ref' fieldName')
  /\ (forall e,
        (tryInjectTransform (installDefaultResolver fieldName fieldConfig)
           schemaComposer).2 = Throw e ->
        instanceofNotAString e = false ->
        (maybeInjectTransform fieldName fieldConfig schemaComposer).2 = Throw e).
Proof.
  split; [|split; [|split]].
  - unfold maybeInjectTransform.
    destruct (tryInjectTransform _ _) as [fc [u|e]]; [discriminate|].
    destruct e; simpl; discriminate.
  - apply maybeInjectTransform_skip.
  - intros ref Hb Hget. rewrite (rewriteField_unfold _ _ _ _ Hget).
    rewrite (maybeInjectTransform_skip _ _ _ Hb). simpl. split; [done|].
    intros ref' fieldName' Hne. by apply getField_putField_other.
  - intros e Hbody He. unfold maybeInjectTransform.
    destruct (tryInjectTransform _ _) as [fc [u|e']]; simpl in Hbody; [discriminate|].
    injection Hbody as ->. by rewrite He.
Qed.

(** A String field in a schema that has no [TextTransform] enum: the
    [Error] of [getETC] passes through the [catch]. *)
Lemma NotAString_is_caught_witness :
  (maybeInjectTransform "name"
     {| type := NamedTypeComposer "String"; args := None; resolve := None |}
     {| composers := []; types := [] |}).2
  = Throw (Error "Cannot find type").
Proof.
  apply (proj2 (proj2 (proj2 (NotAString_is_caught "name"
           {| type := NamedTypeComposer "String"; args := None; resolve := None |}
           {| composers := []; types := [] |})))); reflexivity.
Defined.

Section NonTextField.

(** The field under observation: [fieldName0] of the object type at
    [ref0], configured as [fieldConfig0] before the pass, with a type that
    does not end in String. *)
Variables (ref0 : nat) (fieldName0 : string) (fieldConfig0 : FieldConfig).
Hypothesis not_text : namedTypeOf (type fieldConfig0) <> "String".

Local Abbreviation framed := (framed ref0 fieldName0 fieldConfig0).
Local Abbreviation settled := (settled ref0 fieldName0 fieldConfig0).
Local Abbreviation passInvariant := (passInvariant ref0 fieldName0 fieldConfig0).

Lemma settled_framed (composer : SchemaComposer) : settled composer -> framed composer.
Proof. intros (fc & ? & ? & ? & ?). exists fc. auto. Qed.

Lemma maybeInjectTransform_settles (fieldConfig : FieldConfig)
    (composer : SchemaComposer) :
  type fieldConfig = type fieldConfig0 ->
  args fieldConfig = args fieldConfig0 ->
  (resolve fieldConfig = resolve fieldConfig0
   \/ resolve fieldConfig
      = Some (default (defaultResolver fieldName0) (resolve fieldConfig0))) ->
  let fieldConfig' := (maybeInjectTransform fieldName0 fieldConfig composer).1 in
  type fieldConfig' = type fieldConfig0
  /\ args fieldConfig' = args fieldConfig0
  /\ resolve fieldConfig'
     = Some (default (defaultResolver fieldName0) (resolve fieldConfig0)).
Proof.
  intros Ht Ha Hr. rewrite maybeInjectTransform_skip.
  - simpl. rewrite installDefaultResolver_type, installDefaultResolver_args,
      installDefaultResolver_resolve.
    repeat split; try done. by destruct Hr as [-> | ->].
  - rewrite Ht. by apply maybeBuildTransform_not_text.
Qed.

Lemma rewriteField_step (ref : nat) (fieldName : string) (composer : SchemaComposer) :
  passInvariant composer ->
  is_Some (getField composer ref fieldName) ->
  (rewriteField ref fieldName composer).2 = Ok tt
  /\ passInvariant (rewriteField ref fieldName composer).1
  /\ (forall ref' fieldName',
        is_Some (getField composer ref' fieldName') ->
        is_Some (getField (rewriteField ref fieldName composer).1 ref' fieldName'))
  /\ (settled composer -> settled (rewriteField ref fieldName composer).1)
  /\ ((ref, fieldName) = (ref0, fieldName0) ->
      settled (rewriteField ref fieldName composer).1).
Proof.
  intros [[etc He] (fc0 & Hget0 & Ht & Ha & Hr)] [fc Hget].
  rewrite (rewriteField_unfold _ _ _ _ Hget). simpl.
  assert (Hhit : (ref, fieldName) = (ref0, fieldName0) ->
                 settled (putField composer ref fieldName
                            (maybeInjectTransform fieldName fc composer).1)).
  { intros [= -> ->]. rewrite Hget in Hget0. injection Hget0 as ->.
    eexists. split; [by apply getField_putField_same|].
    by apply maybeInjectTransform_settles. }
  split; [by eapply maybeInjectTransform_ready|].
  split; [split|split; [|split]].
  - rewrite getETC_putField. eauto.
  - destruct (decide ((ref0, fieldName0) = (ref, fieldName))) as [Heq|Hne].
    + apply settled_framed, Hhit. done.
    + exists fc0. by rewrite getField_putField_other.
  - intros ref' fieldName' Hsome.
    destruct (decide ((ref', fieldName') = (ref, fieldName))) as [[= -> ->]|Hne].
    + rewrite getField_putField_same; eauto.
    + by rewrite getField_putField_other.
  - intros (fc1 & Hget1 & Ht1 & Ha1 & Hr1).
    destruct (decide ((ref0, fieldName0) = (ref, fieldName))) as [Heq|Hne].
    + by apply Hhit.
    + exists fc1. by rewrite getField_putField_other.
  - exact Hhit.
Qed.

Lemma rewriteType_step (ref : nat) (composer : SchemaComposer) :
  passInvariant composer ->
  (rewriteType ref composer).2 = Ok tt
  /\ passInvariant (rewriteType ref composer).1
  /\ (settled composer -> settled (rewriteType ref composer).1)
  /\ (ref = ref0 -> settled (rewriteType ref composer).1).
Proof.
  intros Hinv. unfold rewriteType.
  destruct (composers composer !! ref) as [[tn fields| |]|] eqn:E.
  2-4: (simpl; split; [done|]; split; [done|]; split; [done|]; intros ->;
        destruct Hinv as [_ (fc & Hget & _)]; unfold getField in Hget;
        by rewrite E in Hget).
  set (names := map fst (map_to_list fields)).
  set (Inv := fun c => passInvariant c
                       /\ forall name, name ∈ names -> is_Some (getField c ref name)).
  assert (Hstart : Inv composer).
  { split; [done|]. intros name Hname. unfold getField. rewrite E.
    apply list_elem_of_fmap in Hname as [[n fc] [-> Hin]].
    apply elem_of_map_to_list in Hin. eauto. }
  assert (Hstep : forall name c, name ∈ names -> Inv c ->
                    (rewriteField ref name c).2 = Ok tt
                    /\ Inv (rewriteField ref name c).1).
  { intros name c Hname [Hc Hdom].
    destruct (rewriteField_step ref name c Hc (Hdom _ Hname)) as (? & ? & Hkeep & _).
    split; [done|]. split; [done|].
    intros name' Hname'. apply Hkeep, Hdom, Hname'. }
  destruct (forEach_invariant (rewriteField ref) Inv names composer Hstart Hstep)
    as [Hok [Hinv' _]].
  split; [done|]. split; [done|]. split.
  - intros Hset.
    assert (Hstart' : Inv composer /\ settled composer) by done.
    destruct (forEach_invariant (rewriteField ref)
                (fun c => Inv c /\ settled c) names composer Hstart')
      as [_ [_ ?]]; [|done].
    intros name c Hname [[Hc Hdom] Hs].
    destruct (Hstep name c Hname (conj Hc Hdom)) as [? ?].
    destruct (rewriteField_step ref name c Hc (Hdom _ Hname)) as (_ & _ & _ & Hk & _).
    auto.
  - intros ->.
    destruct Hinv as [? (fc & Hget & ?)].
    assert (Hname0 : fieldName0 ∈ names).
    { unfold getField in Hget. rewrite E in Hget.
      apply list_elem_of_fmap. exists (fieldName0, fc). split; [done|].
      by apply elem_of_map_to_list. }
    apply (forEach_reaches (rewriteField ref0) Inv settled names composer fieldName0);
      try done.
    + intros c [Hc Hdom].
      by destruct (rewriteField_step ref0 fieldName0 c Hc (Hdom _ Hname0))
        as (_ & _ & _ & _ & Hhit); apply Hhit.
    + intros name c Hname [Hc Hdom] Hs.
      by destruct (rewriteField_step ref0 name c Hc (Hdom _ Hname))
        as (_ & _ & _ & Hk & _); apply Hk.
Qed.

Lemma pass_settles (composer : SchemaComposer) (refs : list nat) :
  passInvariant composer ->
  ref0 ∈ refs ->
  (forEach rewriteType refs composer).2 = Ok tt
  /\ settled (forEach rewriteType refs composer).1.
Proof.
  intros Hinv Hin. split.
  - apply (forEach_invariant rewriteType passInvariant); [done|].
    intros ref c _ Hc. by destruct (rewriteType_step ref c Hc) as (? & ? & _).
  - apply (forEach_reaches rewriteType passInvariant settled refs composer ref0);
      try done.
    + intros ref c _ Hc. by destruct (rewriteType_step ref c Hc) as (? & ? & _).
    + intros c Hc. by destruct (rewriteType_step ref0 c Hc) as (_ & _ & _ & Hhit);
        apply Hhit.
    + intros ref c _ Hc Hs.
      by destruct (rewriteType_step ref c Hc) as (_ & _ & Hk & _); apply Hk.
Qed.

End NonTextField.

(** C1 (amended).  For every field of a concrete object type of the schema
    whose declared type does not end in String, the rewrite pass runs to its
    end and leaves the field's type and argument mapping as they were, adds no
    [textTransform] argument and no replacement resolver, and leaves a
    resolver the field already had identical; a field that had no resolver
    gets the default one that reads the property of the same name off the
    parent.  (The type has to be registered under a key that the enum does
    not take over.) *)
Theorem non_text_field_frame (composer : SchemaComposer) (key : TypeKey) (ref : nat)
    (fieldName : string) (fieldConfig : FieldConfig) :
  (key, ref) ∈ types composer ->
  key <> ByName "TextTransform" ->
  getField composer ref fieldName = Some fieldConfig ->
  namedTypeOf (type fieldConfig) <> "String" ->
  (injectStringTransformMiddleware composer).2 = Ok tt
  /\ exists fieldConfig',
       getField (injectStringTransformMiddleware composer).1 ref fieldName
       = Some fieldConfig'
       /\ type fieldConfig' = type fieldConfig
       /\ args fieldConfig' = args fieldConfig
       /\ resolve fieldConfig'
          = Some (default (defaultResolver fieldName) (resolve fieldConfig)).
Proof.
  intros Hkey Hne Hget Hnt. unfold injectStringTransformMiddleware.
  apply (pass_settles ref fieldName fieldConfig Hnt).
  - split.
    + eexists. apply getETC_injectTextTransformEnum.
    + exists fieldConfig. split; [by apply getField_injectTextTransformEnum|]. auto.
  - apply list_elem_of_fmap. exists (key, ref). split; [done|].
    by apply mapSet_elem_of.
Qed.

Lemma non_text_field_frame_witness :
  exists fieldConfig',
    getField (injectStringTransformMiddleware sampleSchema).1 0 "total"
    = Some fieldConfig'
    /\ args fieldConfig' = None
    /\ resolve fieldConfig' = Some (fun _ _ _ _ => Ok (VNumber (Num 3))).
Proof.
  destruct (non_text_field_frame sampleSchema (ByName "Query") 0 "total"
              {| type := NonNullComposer (NamedTypeComposer "Int");
                 args := None;
                 resolve := Some (fun _ _ _ _ => Ok (VNumber (Num 3))) |})
    as [_ (fc & Hget & _ & Ha & Hr)].
  - by left.
  - discriminate.
  - reflexivity.
  - discriminate.
  - exists fc. auto.
Defined.

(** C1, as stated, fails: the field [count] has no text in its type and no
    resolver before the pass, and has the default resolver after it. *)
Lemma resolverless_field_counterexample :
  namedTypeOf (NamedTypeComposer "Int") <> "String"
  /\ resolve <$> getField sampleSchema 0 "count" = Some None
  /\ resolve <$> getField (injectStringTransformMiddleware sampleSchema).1 0 "count"
     = Some (Some (defaultResolver "count")).
Proof. split; [discriminate|]. split; reflexivity. Qed.

(** The text field of the sample schema after the pass: it has the
    [textTransform] argument, applies the mode it is given, and without one
    answers as the default resolver does. *)
Example augmented_title_field :
  exists fieldConfig fieldArgs replacement,
    getField (injectStringTransformMiddleware sampleSchema).1 0 "title"
    = Some fieldConfig
    /\ args fieldConfig = Some fieldArgs
    /\ argType <$> fieldArgs !! "textTransform"
       = Some (NamedTypeComposer "TextTransform")
    /\ resolve fieldConfig = Some replacement
    /\ replacement (VObject [("title", VString "war and peace")])
         (VObject [("textTransform", VString "TitleCase")]) VUndefined VUndefined
       = Ok (VString "War And Peace")
    /\ replacement (VObject [("title", VString "war and peace")])
         (VObject []) VUndefined VUndefined
       = Ok (VString "war and peace")
    /\ replacement (VObject [("title", VString "war and peace")])
         (VObject [("textTransform", VString "Shout")]) VUndefined VUndefined
       = Throw (UserInputError "Value out of range").
Proof. do 3 eexists. repeat split; reflexivity. Qed.

(** * Further properties of the code *)

(** ** Case mapping, character by character *)

Ltac all_chars c :=
  destruct c as [[] [] [] [] [] [] [] []]; reflexivity.

Lemma isSpaceChar_upperChar (c : ascii) : isSpaceChar (upperChar c) = isSpaceChar c.
Proof. all_chars c. Qed.

Lemma isSpaceChar_lowerChar (c : ascii) : isSpaceChar (lowerChar c) = isSpaceChar c.
Proof. all_chars c. Qed.

Lemma isWordChar_upperChar (c : ascii) : isWordChar (upperChar c) = isWordChar c.
Proof. all_chars c. Qed.

Lemma isWordChar_lowerChar (c : ascii) : isWordChar (lowerChar c) = isWordChar c.
Proof. all_chars c. Qed.

Lemma upperChar_upperChar (c : ascii) : upperChar (upperChar c) = upperChar c.
Proof. all_chars c. Qed.

Lemma lowerChar_lowerChar (c : ascii) : lowerChar (lowerChar c) = lowerChar c.
Proof. all_chars c. Qed.

Lemma upperChar_lowerChar (c : ascii) : upperChar (lowerChar c) = upperChar c.
Proof. all_chars c. Qed.

Lemma lowerChar_upperChar (c : ascii) : lowerChar (upperChar c) = lowerChar c.
Proof. all_chars c. Qed.

Lemma upperChar_not_word (c : ascii) : isWordChar c = false -> upperChar c = c.
Proof. destruct c as [[] [] [] [] [] [] [] []]; (reflexivity || discriminate). Qed.

Lemma lowerChar_not_word (c : ascii) : isWordChar c = false -> lowerChar c = c.
Proof. destruct c as [[] [] [] [] [] [] [] []]; (reflexivity || discriminate). Qed.

(** ** Title case *)

Lemma mapString_length (f : ascii -> ascii) (s : string) :
  String.length (mapString f s) = String.length s.
Proof. induction s as [|c s IH]; simpl; congruence. Qed.

Lemma titleCaseRuns_length (seen : bool) (s : string) :
  String.length (titleCaseRuns seen s) = String.length s.
Proof.
  revert seen. induction s as [|c s IH]; intros seen; [done|]. simpl.
  destruct (isSpaceChar c); [|destruct seen; [|destruct (isWordChar c)]];
    simpl; by rewrite IH.
Qed.

Lemma titleCaseRuns_lower (seen : bool) (s : string) :
  toLowerCase (titleCaseRuns seen s) = toLowerCase s.
Proof.
  revert seen. unfold toLowerCase.
  induction s as [|c s IH]; intros seen; [done|]. simpl.
  destruct (isSpaceChar c); [|destruct seen; [|destruct (isWordChar c)]];
    simpl; rewrite IH, ?lowerChar_lowerChar, ?lowerChar_upperChar; reflexivity.
Qed.

Lemma titleCaseRuns_upper (seen : bool) (s : string) :
  toUpperCase (titleCaseRuns seen s) = toUpperCase s.
Proof.
  revert seen. unfold toUpperCase.
  induction s as [|c s IH]; intros seen; [done|]. simpl.
  destruct (isSpaceChar c); [|destruct seen; [|destruct (isWordChar c)]];
    simpl; rewrite IH, ?upperChar_upperChar, ?upperChar_lowerChar; reflexivity.
Qed.

Lemma titleCaseRuns_mapString (g : ascii -> ascii) (seen : bool) (s : string) :
  (forall c, isSpaceChar (g c) = isSpaceChar c) ->
  (forall c, isWordChar (g c) = isWordChar c) ->
  (forall c, lowerChar (g c) = lowerChar c) ->
  (forall c, upperChar (g c) = upperChar c) ->
  (forall c, isWordChar c = false -> g c = c) ->
  titleCaseRuns seen (mapString g s) = titleCaseRuns seen s.
Proof.
  intros Hs Hw Hl Hu Hn. revert seen.
  induction s as [|c s IH]; intros seen; [done|]. simpl.
  rewrite Hs, Hw. destruct (isSpaceChar c) eqn:Esp.
  - rewrite IH. f_equal. apply Hn.
    destruct (isWordChar c) eqn:Ew; [|done].
    apply word_not_space in Ew. congruence.
  - destruct seen; [by rewrite IH, Hl|].
    destruct (isWordChar c) eqn:Ew; rewrite IH; [by rewrite Hu | by rewrite Hn].
Qed.

Lemma titleCaseRuns_idempotent (seen : bool) (s : string) :
  titleCaseRuns seen (titleCaseRuns seen s) = titleCaseRuns seen s.
Proof.
  revert seen. induction s as [|c s IH]; intros seen; [done|]. simpl.
  destruct (isSpaceChar c) eqn:Esp.
  - simpl. by rewrite Esp, IH.
  - destruct seen.
    + simpl. by rewrite isSpaceChar_lowerChar, Esp, lowerChar_lowerChar, IH.
    + destruct (isWordChar c) eqn:Ew; simpl.
      * by rewrite isSpaceChar_upperChar, Esp, isWordChar_upperChar, Ew,
          upperChar_upperChar, IH.
      * by rewrite Esp, Ew, IH.
Qed.

Lemma titleCaseRuns_no_word (s : string) :
  (forall c, c ∈ list_ascii_of_string s -> isWordChar c = false) ->
  titleCaseRuns false s = s.
Proof.
  induction s as [|c s IH]; intros H; [done|]. simpl.
  assert (Hc : isWordChar c = false) by (apply H; simpl; by left).
  rewrite Hc. rewrite IH by (intros c' Hc'; apply H; simpl; by right).
  by destruct (isSpaceChar c).
Qed.

(** X1.  On a string of the ASCII range [toTitleCase] changes nothing but
    the case of letters: the result has the length of the input and is the
    same string once both are lower-cased (or both upper-cased). *)
Theorem toTitleCase_only_case (s : string) :
  isAsciiString s = true ->
  String.length (toTitleCase s) = String.length s
  /\ toLowerCase (toTitleCase s) = toLowerCase s
  /\ toUpperCase (toTitleCase s) = toUpperCase s.
Proof.
  intros _. rewrite toTitleCase_titleCaseRuns.
  split; [apply titleCaseRuns_length|].
  split; [apply titleCaseRuns_lower | apply titleCaseRuns_upper].
Qed.

Lemma toTitleCase_only_case_witness :
  String.length (toTitleCase "o'neil mcDONALD") = String.length "o'neil mcDONALD"
  /\ toLowerCase (toTitleCase "o'neil mcDONALD") = toLowerCase "o'neil mcDONALD"
  /\ toUpperCase (toTitleCase "o'neil mcDONALD") = toUpperCase "o'neil mcDONALD".
Proof. apply toTitleCase_only_case. reflexivity. Defined.

(** X2.  On a string of the ASCII range [toTitleCase] is idempotent, and it
    does not see the case of its input: title-casing an upper-cased or
    lower-cased string gives what title-casing the string itself gives. *)
Theorem toTitleCase_absorbs_case (s : string) :
  isAsciiString s = true ->
  toTitleCase (toTitleCase s) = toTitleCase s
  /\ toTitleCase (toUpperCase s) = toTitleCase s
  /\ toTitleCase (toLowerCase s) = toTitleCase s.
Proof.
  intros _.
  rewrite !toTitleCase_titleCaseRuns. split; [apply titleCaseRuns_idempotent|].
  split; apply titleCaseRuns_mapString;
    auto using isSpaceChar_upperChar, isWordChar_upperChar, lowerChar_upperChar,
      upperChar_upperChar, upperChar_not_word, isSpaceChar_lowerChar,
      isWordChar_lowerChar, lowerChar_lowerChar, upperChar_lowerChar,
      lowerChar_not_word.
Qed.

Lemma toTitleCase_absorbs_case_witness :
  toTitleCase (toTitleCase "o'neil mcDONALD") = toTitleCase "o'neil mcDONALD"
  /\ toTitleCase (toUpperCase "o'neil mcDONALD") = toTitleCase "o'neil mcDONALD"
  /\ toTitleCase (toLowerCase "o'neil mcDONALD") = toTitleCase "o'neil mcDONALD".
Proof. apply toTitleCase_absorbs_case. reflexivity. Defined.

(** X3.  A string without word characters (the empty string, white space,
    punctuation) has no match of the pattern and is returned as it is. *)
Theorem toTitleCase_no_word (s : string) :
  (forall c, c ∈ list_ascii_of_string s -> isWordChar c = false) ->
  toTitleCase s = s.
Proof.
  intros H. rewrite toTitleCase_titleCaseRuns. by apply titleCaseRuns_no_word.
Qed.

Lemma toTitleCase_no_word_witness : toTitleCase " -- ?! " = " -- ?! ".
Proof.
  apply toTitleCase_no_word. intros c Hc. simpl in Hc.
  repeat (apply elem_of_cons in Hc as [-> | Hc]; [reflexivity|]).
  by apply elem_of_nil in Hc.
Defined.

(** ** Composing and repeating transforms *)

Lemma mapString_compose (f g h : ascii -> ascii) (s : string) :
  (forall c, f (g c) = h c) -> mapString f (mapString g s) = mapString h s.
Proof. intros H. induction s as [|c s IH]; simpl; congruence. Qed.

Lemma caseMapping_compose (m1 m2 : Value) (s : string) :
  isTextTransform m1 -> isTextTransform m2 ->
  caseMapping m2 (caseMapping m1 s) = caseMapping m2 s.
Proof.
  pose proof (toTitleCase_titleCaseRuns s) as Ht.
  intros [-> | [-> | ->]] [-> | [-> | ->]]; unfold caseMapping; simpl;
    rewrite ?Ht;
    first [ apply mapString_compose;
            auto using upperChar_upperChar, upperChar_lowerChar,
              lowerChar_upperChar, lowerChar_lowerChar
          | apply titleCaseRuns_upper
          | apply titleCaseRuns_lower
          | rewrite !toTitleCase_titleCaseRuns;
            first [ apply titleCaseRuns_idempotent
                  | apply titleCaseRuns_mapString;
                    auto using isSpaceChar_upperChar, isWordChar_upperChar,
                      lowerChar_upperChar, upperChar_upperChar, upperChar_not_word,
                      isSpaceChar_lowerChar, isWordChar_lowerChar,
                      lowerChar_lowerChar, upperChar_lowerChar, lowerChar_not_word ] ].
Qed.

(** On a string, a mode of the enumeration is its case mapping. *)
Lemma baseTransform_caseMapping (s : string) (transform : Value) :
  isTextTransform transform ->
  baseTransform (VString s) transform = Ok (VString (caseMapping transform s)).
Proof. by intros [-> | [-> | ->]]. Qed.

Lemma caseMapping_falsy (transform : Value) (s : string) :
  truthy transform = false -> caseMapping transform s = s.
Proof.
  intros H. unfold caseMapping.
  destruct transform as [| | | |m| |]; try done.
  simpl in *. destruct m; [done | discriminate].
Qed.

Lemma isTextTransform_cases (transform : Value) :
  isTextTransform transform \/ ~ isTextTransform transform.
Proof.
  unfold isTextTransform.
  destruct (strictEqString transform "UPPERCASE") eqn:E1;
    [apply strictEqString_true in E1; auto|].
  destruct (strictEqString transform "lowercase") eqn:E2;
    [apply strictEqString_true in E2; auto|].
  destruct (strictEqString transform "TitleCase") eqn:E3;
    [apply strictEqString_true in E3; auto|].
  right. intros [-> | [-> | ->]]; discriminate.
Qed.

Lemma baseTransform_throws (s : string) (transform : Value) :
  truthy transform = true ->
  ~ isTextTransform transform ->
  baseTransform (VString s) transform = Throw (UserInputError "Value out of range").
Proof.
  intros Ht Hn. apply not_isTextTransform in Hn as (H1 & H2 & H3).
  unfold baseTransform. by rewrite Ht, H1, H2, H3.
Qed.

Lemma baseTransform_idempotent (value transform result : Value) :
  baseTransform value transform = Ok result ->
  baseTransform result transform = Ok result.
Proof.
  destruct (truthy transform) eqn:Ht.
  2: { rewrite !baseTransform_falsy by done. by intros [= <-]. }
  destruct (decide (typeof value = "string")) as [Hs|Hs].
  2: { rewrite (baseTransform_not_string _ _ Hs). intros [= <-].
       by apply baseTransform_not_string. }
  apply typeof_string in Hs as [s ->].
  destruct (isTextTransform_cases transform) as [Hm|Hm].
  - rewrite (baseTransform_caseMapping _ _ Hm). intros [= <-].
    rewrite (baseTransform_caseMapping _ _ Hm). by rewrite caseMapping_compose.
  - by rewrite baseTransform_throws.
Qed.

Lemma isTextTransform_truthy (transform : Value) :
  isTextTransform transform -> truthy transform = true.
Proof. by intros [-> | [-> | ->]]. Qed.

Lemma baseTransform_last_wins (value m1 m2 result : Value) :
  isTextTransform m1 -> isTextTransform m2 ->
  baseTransform value m1 = Ok result ->
  baseTransform result m2 = baseTransform value m2.
Proof.
  intros H1 H2.
  destruct (decide (typeof value = "string")) as [Hs|Hs].
  - apply typeof_string in Hs as [s ->].
    rewrite (baseTransform_caseMapping _ _ H1). intros [= <-].
    rewrite !(baseTransform_caseMapping _ _ H2). by rewrite caseMapping_compose.
  - rewrite (baseTransform_not_string _ _ Hs). by intros [= <-].
Qed.

Lemma mapM_Forall2_ext {A B : Type} (f : A -> result B) (l l' : list A) :
  Forall2 (fun x y => f y = f x) l l' -> mapM f l' = mapM f l.
Proof.
  induction 1 as [|x y l l' Hxy _ IH]; simpl; [done|]. by rewrite Hxy, IH.
Qed.

Lemma listTransform_idempotent (subtransform : TransformFn)
    (value transform result : Value) :
  (forall x y, subtransform x transform = Ok y -> subtransform y transform = Ok y) ->
  listTransform subtransform value transform = Ok result ->
  listTransform subtransform result transform = Ok result.
Proof.
  intros Hsub.
  destruct (truthy transform) eqn:Ht.
  2: { rewrite !listTransform_unchanged by (by left). by intros [= <-]. }
  destruct value as [| | | | |items|];
    try (rewrite listTransform_unchanged by (by right); intros [= <-];
         apply listTransform_unchanged; by right).
  intros H. apply listTransform_array in H as (mapped & -> & HF); [|done].
  apply listTransform_array; [done|]. exists mapped. split; [done|].
  apply Forall_Forall2_diag, Forall_forall. intros y Hy.
  apply list_elem_of_lookup in Hy as [i Hi].
  destruct (Forall2_lookup_r _ _ _ _ _ HF Hi) as (x & _ & Hxy). by eapply Hsub.
Qed.

Lemma listTransform_last_wins (subtransform : TransformFn)
    (value m1 m2 result : Value) :
  truthy m2 = true ->
  (forall x y, subtransform x m1 = Ok y -> subtransform y m2 = subtransform x m2) ->
  listTransform subtransform value m1 = Ok result ->
  listTransform subtransform result m2 = listTransform subtransform value m2.
Proof.
  intros H2 Hsub.
  destruct (truthy m1) eqn:Ht.
  2: { rewrite (listTransform_unchanged _ value m1) by (by left). by intros [= <-]. }
  destruct value as [| | | | |items|];
    try (rewrite listTransform_unchanged by (by right); by intros [= <-]).
  intros H. apply listTransform_array in H as (mapped & -> & HF); [|done].
  unfold listTransform. simpl. rewrite H2. simpl.
  rewrite (mapM_Forall2_ext (fun x => subtransform x m2) items mapped); [done|].
  eapply Forall2_impl; [exact HF|]. intros x y Hxy. by apply Hsub.
Qed.

Lemma built_transform_idempotent (outputType : OutputType) (transformFn : TransformFn)
    (value transform result : Value) :
  maybeBuildTransform outputType = Ok transformFn ->
  transformFn value transform = Ok result ->
  transformFn result transform = Ok result.
Proof.
  intros Hb. apply maybeBuildTransform_Ok in Hb as [_ ->].
  destruct (outerList outputType).
  - apply listTransform_idempotent. intros x y. apply baseTransform_idempotent.
  - apply baseTransform_idempotent.
Qed.

Lemma built_transform_last_wins (outputType : OutputType) (transformFn : TransformFn)
    (value m1 m2 result : Value) :
  isTextTransform m1 -> isTextTransform m2 ->
  maybeBuildTransform outputType = Ok transformFn ->
  transformFn value m1 = Ok result ->
  transformFn result m2 = transformFn value m2.
Proof.
  intros H1 H2 Hb. apply maybeBuildTransform_Ok in Hb as [_ ->].
  destruct (outerList outputType).
  - apply listTransform_last_wins.
    + by apply isTextTransform_truthy.
    + intros x y. by apply baseTransform_last_wins.
  - by apply baseTransform_last_wins.
Qed.

(** X4.  Transforms applied one after the other, on a value whose strings
    are of the ASCII range: a transform that the builder returns is
    idempotent for every mode (applied to its own result it returns that
    result), and of two modes of the enumeration the later one decides (the
    result is what the later mode gives on the original value). *)
Theorem transforms_compose (outputType : OutputType) (transformFn : TransformFn)
    (value m1 m2 result : Value) :
  isAsciiValue value = true ->
  maybeBuildTransform outputType = Ok transformFn ->
  transformFn value m1 = Ok result ->
  transformFn result m1 = Ok result
  /\ (isTextTransform m1 -> isTextTransform m2 ->
      transformFn result m2 = transformFn value m2).
Proof.
  intros _ Hb H. split.
  - exact (built_transform_idempotent _ _ _ _ _ Hb H).
  - intros H1 H2. exact (built_transform_last_wins _ _ _ _ _ _ H1 H2 Hb H).
Qed.

Lemma transforms_compose_witness :
  listTransform baseTransform (VArray [VString "Ann Lee"; VNull]) (VString "UPPERCASE")
  = listTransform baseTransform (VArray [VString "ann lee"; VNull]) (VString "UPPERCASE").
Proof.
  apply (proj2 (transforms_compose (ListComposer (NamedTypeComposer "String"))
                  (listTransform baseTransform)
                  (VArray [VString "ann lee"; VNull])
                  (VString "TitleCase") (VString "UPPERCASE")
                  (VArray [VString "Ann Lee"; VNull]) eq_refl eq_refl eq_refl));
    unfold isTextTransform; auto.
Defined.

(** ** What the built transform is *)

(** X5.  The outcome of the builder depends on two things only: the named
    type under the wrappers, and whether the first layer that is not a
    deferred reference is a list.  On a type that ends in String it returns
    the base transform, under one list closure in the latter case, whatever
    wrappers follow; on any other type it raises [NotAString] and nothing
    else. *)
Theorem maybeBuildTransform_outcome (outputType : OutputType) :
  maybeBuildTransform outputType
  = if String.eqb (namedTypeOf outputType) "String"
    then Ok (if outerList outputType then listTransform baseTransform
             else baseTransform)
    else Throw NotAString.
Proof. apply maybeBuildTransform_closed_form. Qed.

Lemma mapAtDepth_id (depth : nat) (g : string -> string) (v : Value) :
  (forall s, g s = s) -> mapAtDepth depth g v = v.
Proof.
  intros Hg. revert v. induction depth as [|depth IH]; intros v.
  - destruct v; simpl; by rewrite ?Hg.
  - destruct v as [| | | | |items|]; simpl; try done.
    f_equal. rewrite <- (map_id items) at 2. apply map_ext. exact IH.
Qed.

Lemma mapM_pure {A B : Type} (f : A -> result B) (h : A -> B) (l : list A) :
  (forall x, f x = Ok (h x)) -> mapM f l = Ok (map h l).
Proof.
  intros H. apply mapM_Ok. change (map h l) with (h <$> l).
  apply Forall2_fmap_r, Forall_Forall2_diag, Forall_forall. auto.
Qed.

Lemma iter_listTransform_mapAtDepth (depth : nat) (value transform : Value) :
  truthy transform = false \/ isTextTransform transform ->
  Nat.iter depth listTransform baseTransform value transform
  = Ok (mapAtDepth depth (caseMapping transform) value).
Proof.
  intros Hm. revert value. induction depth as [|depth IH]; intros value.
  - simpl Nat.iter. destruct Hm as [Hm|Hm].
    + rewrite baseTransform_falsy by done.
      by rewrite mapAtDepth_id by (intros; by apply caseMapping_falsy).
    + destruct (decide (typeof value = "string")) as [Hs|Hs].
      * apply typeof_string in Hs as [s ->]. by apply baseTransform_caseMapping.
      * rewrite baseTransform_not_string by done. by destruct value.
  - simpl Nat.iter. destruct Hm as [Hm|Hm].
    + rewrite listTransform_unchanged by (by left).
      by rewrite mapAtDepth_id by (intros; by apply caseMapping_falsy).
    + destruct value as [| | | | |items|];
        try (rewrite listTransform_unchanged by (by right); reflexivity).
      unfold listTransform. rewrite (isTextTransform_truthy _ Hm). simpl.
      rewrite (mapM_pure _ (mapAtDepth depth (caseMapping transform))); [done|].
      intros x. apply IH.
Qed.

Lemma built_transform_mapAtDepth (outputType : OutputType)
    (transformFn : TransformFn) (value transform : Value) :
  maybeBuildTransform outputType = Ok transformFn ->
  truthy transform = false \/ isTextTransform transform ->
  transformFn value transform
  = Ok (mapAtDepth (transformDepth outputType) (caseMapping transform) value).
Proof.
  intros Hb Hm. apply maybeBuildTransform_Ok in Hb as [_ ->].
  unfold transformDepth. destruct (outerList outputType).
  - by apply (iter_listTransform_mapAtDepth 1).
  - by apply (iter_listTransform_mapAtDepth 0).
Qed.

(** X6.  What a built transform computes.  For a field type that ends in
    String and a mode that is falsy or of the enumeration, the transform
    returns the value with the case mapping of the mode applied to the
    strings that are the elements of the value, if the first layer of the
    type that is not a deferred reference is a list, and to the value
    itself otherwise.  Everything else comes back as it is: a string among
    the elements when the type is not such a list, arrays within arrays
    however many list wrappers the type has, numbers, null and objects. *)
Theorem built_transform_maps_at_depth (outputType : OutputType)
    (transformFn : TransformFn) (value transform : Value) :
  maybeBuildTransform outputType = Ok transformFn ->
  truthy transform = false \/ isTextTransform transform ->
  transformFn value transform
  = Ok (mapAtDepth (if outerList outputType then 1 else 0)
          (caseMapping transform) value).
Proof. apply built_transform_mapAtDepth. Qed.

Lemma built_transform_maps_at_depth_witness :
  listTransform baseTransform
    (VArray [VArray [VString "a"; VNumber (Num 1)]; VString "b";
             VArray [VArray [VString "c"]]])
    (VString "UPPERCASE")
  = Ok (VArray [VArray [VString "a"; VNumber (Num 1)]; VString "B";
                VArray [VArray [VString "c"]]]).
Proof.
  apply (built_transform_maps_at_depth
           (ThunkComposer (ListComposer (ListComposer
              (ThunkComposer (NamedTypeComposer "String")))))).
  - reflexivity.
  - right. unfold isTextTransform. auto.
Defined.

(** X19.  The closure that the builder returns for a list wrapper, with
    the sub-transform it is built over (the transform of
    [outputType.getUnwrappedTC()]): it returns its input unchanged without a
    mode or on a value that is not an array; on an array it returns a new
    array of the same length that holds, position by position, the results
    of the sub-transform on the elements, and with a mode of the enumeration
    it does return; elements that are not strings, arrays among them, come
    back as they are. *)
Theorem list_closure_elementwise (ofType : OutputType) (subtransform : TransformFn) :
  maybeBuildTransform (getUnwrappedTC (ListComposer ofType)) = Ok subtransform ->
  exists transformFn,
    maybeBuildTransform (ListComposer ofType) = Ok transformFn
    /\ (forall currentValue transform,
          truthy transform = false \/ isArray currentValue = false ->
          transformFn currentValue transform = Ok currentValue)
    /\ (forall items transform result,
          truthy transform = true ->
          transformFn (VArray items) transform = Ok result ->
          exists mapped,
            result = VArray mapped
            /\ length mapped = length items
            /\ forall i x, items !! i = Some x ->
                 exists y, mapped !! i = Some y /\ subtransform x transform = Ok y)
    /\ (forall items transform,
          isTextTransform transform ->
          exists mapped,
            transformFn (VArray items) transform = Ok (VArray mapped)
            /\ length mapped = length items)
    /\ (forall items transform mapped i x,
          transformFn (VArray items) transform = Ok (VArray mapped) ->
          items !! i = Some x -> typeof x <> "string" -> mapped !! i = Some x).
Proof.
  intros Hsub. exists (listTransform subtransform).
  split; [by rewrite maybeBuildTransform_unfold, getTypeName_List, Hsub|].
  split; [apply listTransform_unchanged|].
  split.
  { intros items transform result Ht H.
    apply listTransform_array in H as (mapped & -> & HF); [|done].
    exists mapped. split; [done|]. split; [symmetry; by eapply Forall2_length|].
    intros i x Hi. by eapply Forall2_lookup_l in HF. }
  split.
  { intros items transform Hmode.
    assert (Ht : truthy transform = true) by (by destruct Hmode as [-> | [-> | ->]]).
    destruct (listTransform_total subtransform transform) with (value := VArray items)
      as [result Hres].
    { intros v. eapply built_transform_enum_total; [by right | done]. }
    pose proof Hres as Hres'.
    apply listTransform_array in Hres' as (mapped & -> & HF); [|done].
    exists mapped. split; [done|]. symmetry. by eapply Forall2_length. }
  intros items transform mapped i x H Hi Hx.
  cbn [getUnwrappedTC] in Hsub. rewrite maybeBuildTransform_named in Hsub.
  destruct (String.eqb (namedTypeOf ofType) "String"); [|discriminate].
  injection Hsub as <-.
  destruct (truthy transform) eqn:Ht.
  - apply listTransform_array in H as (mapped' & [= <-] & HF); [|done].
    destruct (Forall2_lookup_l _ _ _ _ _ HF Hi) as (y & Hy & Hxy).
    rewrite (baseTransform_not_string _ _ Hx) in Hxy. by injection Hxy as <-.
  - rewrite listTransform_unchanged in H; [|by left]. by injection H as <-.
Qed.

Lemma list_closure_elementwise_witness :
  exists transformFn,
    maybeBuildTransform (ListComposer (ListComposer (NamedTypeComposer "String")))
    = Ok transformFn
    /\ forall items transform mapped i x,
         transformFn (VArray items) transform = Ok (VArray mapped) ->
         items !! i = Some x -> typeof x <> "string" -> mapped !! i = Some x.
Proof.
  destruct (list_closure_elementwise (ListComposer (NamedTypeComposer "String"))
              baseTransform eq_refl) as (transformFn & Hb & _ & _ & _ & Hs).
  exists transformFn. split; [exact Hb | exact Hs].
Defined.

Lemma baseTransform_out_of_range_same (value transform result : Value) :
  ~ isTextTransform transform ->
  baseTransform value transform = Ok result ->
  result = value.
Proof.
  intros Hn.
  destruct (truthy transform) eqn:Ht.
  2: { rewrite baseTransform_falsy by done. by intros [= <-]. }
  destruct (decide (typeof value = "string")) as [Hs|Hs].
  - apply typeof_string in Hs as [s ->]. by rewrite baseTransform_throws.
  - rewrite baseTransform_not_string by done. by intros [= <-].
Qed.

Lemma built_transform_out_of_range (outputType : OutputType)
    (transformFn : TransformFn) (value transform result : Value) :
  maybeBuildTransform outputType = Ok transformFn ->
  ~ isTextTransform transform ->
  transformFn value transform = Ok result ->
  result = value.
Proof.
  intros Hb Hn. apply maybeBuildTransform_Ok in Hb as [_ ->].
  destruct (outerList outputType); [|by apply baseTransform_out_of_range_same].
  destruct (truthy transform) eqn:Ht.
  2: { rewrite listTransform_unchanged by (by left). by intros [= <-]. }
  destruct value as [| | | | |items|];
    try (rewrite listTransform_unchanged by (by right); by intros [= <-]).
  intros H. apply listTransform_array in H as (mapped & -> & HF); [|done].
  f_equal. symmetry. apply list_eq_Forall2.
  eapply Forall2_impl; [exact HF|]. intros x y Hxy. symmetry.
  by eapply baseTransform_out_of_range_same.
Qed.

(** X7.  A mode outside the enumeration never yields a changed value: the
    transform either throws, or returns the value exactly as it was (which
    is the case when no string sits at the depth the type gives). *)
Theorem out_of_range_changes_nothing (outputType : OutputType)
    (transformFn : TransformFn) (value transform result : Value) :
  maybeBuildTransform outputType = Ok transformFn ->
  ~ isTextTransform transform ->
  transformFn value transform = Ok result ->
  result = value.
Proof. apply built_transform_out_of_range. Qed.

Lemma out_of_range_changes_nothing_witness :
  VArray [VNull; VArray [VString "deep"]] = VArray [VNull; VArray [VString "deep"]].
Proof.
  apply (out_of_range_changes_nothing (ListComposer (NamedTypeComposer "String"))
           (listTransform baseTransform)
           (VArray [VNull; VArray [VString "deep"]]) (VString "Shout")
           (VArray [VNull; VArray [VString "deep"]]) eq_refl).
  - unfold isTextTransform. intros [H|[H|H]]; discriminate H.
  - reflexivity.
Defined.

Lemma caseMapping_length (transform : Value) (s : string) :
  String.length (caseMapping transform s) = String.length s.
Proof.
  unfold caseMapping.
  destruct (strictEqString transform "UPPERCASE"); [apply mapString_length|].
  destruct (strictEqString transform "lowercase"); [apply mapString_length|].
  destruct (strictEqString transform "TitleCase"); [|done].
  rewrite toTitleCase_titleCaseRuns. apply titleCaseRuns_length.
Qed.

Lemma mapAtDepth_sameShape (depth : nat) (g : string -> string) (v : Value) :
  (forall s, String.length (g s) = String.length s) ->
  sameShape v (mapAtDepth depth g v).
Proof.
  intros Hg. revert v. induction depth as [|depth IH]; intros v.
  - destruct v; simpl; try apply sameShape_refl. by apply sameShape_string.
  - destruct v as [| | | | |items|]; simpl; try apply sameShape_refl.
    apply sameShape_array. change (map (mapAtDepth depth g) items)
      with (mapAtDepth depth g <$> items).
    apply Forall2_fmap_r, Forall_Forall2_diag, Forall_forall. auto.
Qed.

(** X8.  Whatever the mode, a transform that returns keeps the shape of a
    value whose strings are of the ASCII range: every array keeps its
    length and every string its length; nothing is added, dropped or
    reordered. *)
Theorem built_transform_keeps_shape (outputType : OutputType)
    (transformFn : TransformFn) (value transform result : Value) :
  isAsciiValue value = true ->
  maybeBuildTransform outputType = Ok transformFn ->
  transformFn value transform = Ok result ->
  sameShape value result.
Proof.
  intros _ Hb H.
  destruct (isTextTransform_cases transform) as [Hm|Hm].
  - rewrite (built_transform_mapAtDepth _ _ _ _ Hb) in H by (by right).
    injection H as <-. apply mapAtDepth_sameShape. apply caseMapping_length.
  - rewrite (built_transform_out_of_range _ _ _ _ _ Hb Hm H). apply sameShape_refl.
Qed.

Lemma built_transform_keeps_shape_witness :
  sameShape (VArray [VString "ann"; VNull; VString "BOB"])
            (VArray [VString "Ann"; VNull; VString "Bob"]).
Proof.
  apply (built_transform_keeps_shape (ListComposer (NamedTypeComposer "String"))
           (listTransform baseTransform) _ (VString "TitleCase")); reflexivity.
Defined.

(** ** Resolvers *)

Lemma transformingResolver_equiv (r r' : Resolver) (transformFn : TransformFn) :
  resolverEquiv r r' ->
  resolverEquiv (transformingResolver r transformFn)
                (transformingResolver r' transformFn).
Proof. intros H source args context info. unfold transformingResolver. by rewrite H. Qed.

Lemma transformingResolver_twice (r : Resolver) (transformFn : TransformFn) :
  (forall value transform result,
     transformFn value transform = Ok result ->
     transformFn result transform = Ok result) ->
  resolverEquiv (transformingResolver (transformingResolver r transformFn) transformFn)
                (transformingResolver r transformFn).
Proof.
  intros Hidem source args context info. unfold transformingResolver.
  destruct (r source args context info) as [value|e]; [|done]. simpl.
  destruct (if String.eqb (typeof args) "object"
            then getProp args "textTransform" else Ok VUndefined) as [mode|e];
    [|done]. simpl.
  destruct (transformFn value mode) as [result|e] eqn:E; [|done]. simpl.
  exact (Hidem _ _ _ E).
Qed.

(** ** One field, in detail *)

Lemma transformingResolver_argsMode (resolver : Resolver) (transformFn : TransformFn)
    (source args context info : Value) :
  args <> VNull ->
  transformingResolver resolver transformFn source args context info
  = (value ← resolver source args context info; transformFn value (argsMode args)).
Proof.
  intros Hn. unfold transformingResolver.
  destruct (resolver source args context info) as [value|e]; [|done]. simpl.
  by destruct args.
Qed.

(** X10.  [injectArgs] in a schema that has the enum: it does not throw,
    leaves type and resolver alone, stores the [textTransform] argument with
    the enum as its type, keeps every other argument of the field, and doing
    it again changes nothing. *)
Theorem injectArgs_adds_one_argument (fieldConfig : FieldConfig)
    (composer : SchemaComposer) (etc : OutputType) :
  getETC composer "TextTransform" = Ok etc ->
  (injectArgs fieldConfig composer).2 = Ok tt
  /\ type (injectArgs fieldConfig composer).1 = type fieldConfig
  /\ resolve (injectArgs fieldConfig composer).1 = resolve fieldConfig
  /\ (exists fieldArgs,
        args (injectArgs fieldConfig composer).1 = Some fieldArgs
        /\ fieldArgs !! "textTransform" = Some (textTransformArg etc)
        /\ forall name, name <> "textTransform" ->
             fieldArgs !! name = default ∅ (args fieldConfig) !! name)
  /\ injectArgs (injectArgs fieldConfig composer).1 composer
     = injectArgs fieldConfig composer.
Proof.
  intros He. unfold injectArgs. rewrite He. simpl.
  repeat split.
  - eexists. split; [reflexivity|]. split; [apply lookup_insert_eq|].
    intros name Hn. by apply lookup_insert_ne.
  - unfold setArgs. simpl. by rewrite insert_insert_eq.
Qed.

Lemma injectArgs_adds_one_argument_witness :
  (injectArgs {| type := NamedTypeComposer "String"; args := None; resolve := None |}
     enumOnly).2 = Ok tt.
Proof.
  apply (injectArgs_adds_one_argument
           {| type := NamedTypeComposer "String"; args := None; resolve := None |}
           enumOnly (NamedTypeComposer "TextTransform") eq_refl).
Defined.

(** X11.  Rewriting a text field in a schema where the enum is not
    registered: the [Error] of [getETC] reaches the caller, and the field is
    left half done: it has the default resolver if it had none, its [args]
    exist (empty if it had none), but there is no [textTransform] argument
    and the resolver is not wrapped. *)
Theorem maybeInjectTransform_without_enum (fieldName : string)
    (fieldConfig : FieldConfig) (schemaComposer : SchemaComposer) (e : exn) :
  namedTypeOf (type fieldConfig) = "String" ->
  getETC schemaComposer "TextTransform" = Throw e ->
  maybeInjectTransform fieldName fieldConfig schemaComposer
  = ({| type := type fieldConfig;
        args := Some (default ∅ (args fieldConfig));
        resolve := Some (default (defaultResolver fieldName) (resolve fieldConfig)) |},
     Throw e).
Proof.
  intros Ht He. destruct (maybeBuildTransform_text _ Ht) as [f Hf].
  unfold maybeInjectTransform, tryInjectTransform, injectArgs.
  rewrite installDefaultResolver_type, Hf, He.
  rewrite (getETC_throws_Error _ _ _ He). simpl.
  unfold installDefaultResolver, setArgs, setResolve.
  destruct (resolve fieldConfig) eqn:E; simpl; by rewrite ?E.
Qed.

Lemma maybeInjectTransform_without_enum_witness :
  maybeInjectTransform "title"
    {| type := NamedTypeComposer "String"; args := None; resolve := None |}
    {| composers := []; types := [] |}
  = ({| type := NamedTypeComposer "String";
        args := Some ∅;
        resolve := Some (defaultResolver "title") |},
     Throw (Error "Cannot find type")).
Proof.
  apply (maybeInjectTransform_without_enum "title"
           {| type := NamedTypeComposer "String"; args := None; resolve := None |}
           {| composers := []; types := [] |}); reflexivity.
Defined.

Lemma maybeInjectTransform_type (fieldName : string) (fieldConfig : FieldConfig)
    (schemaComposer : SchemaComposer) :
  type (maybeInjectTransform fieldName fieldConfig schemaComposer).1 = type fieldConfig.
Proof.
  destruct (maybeBuildTransform_cases (type fieldConfig)) as [[f Hf]|Hf].
  - destruct (getETC schemaComposer "TextTransform") as [etc|e] eqn:He.
    + by rewrite (maybeInjectTransform_inject _ _ _ _ _ Hf He).
    + unfold maybeInjectTransform, tryInjectTransform, injectArgs.
      rewrite installDefaultResolver_type, Hf, He.
      rewrite (getETC_throws_Error _ _ _ He). simpl.
      apply installDefaultResolver_type.
  - rewrite (maybeInjectTransform_skip _ _ _ Hf). apply installDefaultResolver_type.
Qed.

(** X12.  Rewriting a field a second time (which the driver does when a
    type sits under two keys of the registry, or when the middleware runs
    twice) changes nothing that can be observed: type and arguments are as
    after the first time, and the resolver, wrapped once more for a text
    field, settles on every input as the resolver of the first time does. *)
Theorem maybeInjectTransform_twice (fieldName : string) (fieldConfig : FieldConfig)
    (schemaComposer : SchemaComposer) (etc : OutputType) :
  getETC schemaComposer "TextTransform" = Ok etc ->
  let once := (maybeInjectTransform fieldName fieldConfig schemaComposer).1 in
  let twice := (maybeInjectTransform fieldName once schemaComposer).1 in
  (maybeInjectTransform fieldName once schemaComposer).2 = Ok tt
  /\ type twice = type once
  /\ args twice = args once
  /\ exists r1 r2,
       resolve once = Some r1 /\ resolve twice = Some r2 /\ resolverEquiv r2 r1.
Proof.
  intros He once twice. subst once twice.
  split; [by eapply maybeInjectTransform_ready|].
  split; [apply maybeInjectTransform_type|].
  destruct (maybeBuildTransform_cases (type fieldConfig)) as [[f Hf]|Hf].
  - rewrite (maybeInjectTransform_inject _ _ _ _ _ Hf He). simpl.
    rewrite (maybeInjectTransform_inject _ _ schemaComposer f etc) by done. simpl.
    split; [by rewrite insert_insert_eq|].
    do 2 eexists. split; [done|]. split; [done|].
    apply transformingResolver_twice. intros value transform result.
    by apply built_transform_idempotent with (outputType := type fieldConfig).
  - rewrite (maybeInjectTransform_skip _ _ _ Hf). simpl.
    rewrite maybeInjectTransform_skip by (by rewrite installDefaultResolver_type).
    simpl. rewrite installDefaultResolver_args.
    split; [done|]. rewrite !installDefaultResolver_resolve. simpl.
    do 2 eexists. split; [done|]. split; [done|]. by intros ? ? ? ?.
Qed.

Lemma maybeInjectTransform_twice_witness :
  exists r1 r2,
    resolve (maybeInjectTransform "title"
               {| type := NamedTypeComposer "String"; args := None; resolve := None |}
               enumOnly).1 = Some r1
    /\ resolve (maybeInjectTransform "title"
                  (maybeInjectTransform "title"
                     {| type := NamedTypeComposer "String"; args := None;
                        resolve := None |} enumOnly).1
                  enumOnly).1 = Some r2
    /\ resolverEquiv r2 r1.
Proof.
  exact (proj2 (proj2 (proj2 (maybeInjectTransform_twice "title"
           {| type := NamedTypeComposer "String"; args := None; resolve := None |}
           enumOnly (NamedTypeComposer "TextTransform") eq_refl)))).
Defined.

(** X13.  The identity law, where it holds.  After a text field has been
    rewritten, a call of its resolver with arguments other than [null] that
    carry no mode ([textTransform] absent or falsy, or arguments that are not
    an object) settles exactly as the resolver the field had before does (the
    default resolver, if it had none). *)
Theorem replacement_resolver_without_mode (fieldName : string)
    (fieldConfig : FieldConfig) (schemaComposer : SchemaComposer) (etc : OutputType)
    (source args context info : Value) :
  namedTypeOf (type fieldConfig) = "String" ->
  getETC schemaComposer "TextTransform" = Ok etc ->
  args <> VNull ->
  truthy (argsMode args) = false ->
  exists replacement,
    resolve (maybeInjectTransform fieldName fieldConfig schemaComposer).1
    = Some replacement
    /\ replacement source args context info
       = default (defaultResolver fieldName) (resolve fieldConfig)
           source args context info.
Proof.
  intros Ht He Hn Hm. destruct (maybeBuildTransform_text _ Ht) as [f Hf].
  rewrite (maybeInjectTransform_inject _ _ _ _ _ Hf He). simpl.
  eexists. split; [done|]. rewrite transformingResolver_argsMode by done.
  destruct (default (defaultResolver fieldName) (resolve fieldConfig)
              source args context info) as [value|e]; [|done].
  simpl. by eapply built_transform_no_mode.
Qed.

Lemma replacement_resolver_without_mode_witness :
  exists replacement,
    resolve (maybeInjectTransform "title"
               {| type := NamedTypeComposer "String"; args := None; resolve := None |}
               enumOnly).1 = Some replacement
    /\ replacement (VObject [("title", VString "Dune")]) VUndefined VNull VNull
       = defaultResolver "title" (VObject [("title", VString "Dune")])
           VUndefined VNull VNull.
Proof.
  apply (replacement_resolver_without_mode "title"
           {| type := NamedTypeComposer "String"; args := None; resolve := None |}
           enumOnly (NamedTypeComposer "TextTransform")); done.
Defined.

(** X14.  What the rewritten resolver of a text field does: a failure of
    the original resolver is passed on untouched, whatever the arguments are;
    and when the original resolver gives a value and the arguments (not
    [null]) carry a mode of the enumeration, the result is that value with
    the case mapping of the mode applied to it, if it is a string, or, when
    the first layer of the field type that is not a deferred reference is a
    list, to those of its elements that are strings. *)
Theorem replacement_resolver_with_mode (fieldName : string)
    (fieldConfig : FieldConfig) (schemaComposer : SchemaComposer) (etc : OutputType) :
  namedTypeOf (type fieldConfig) = "String" ->
  getETC schemaComposer "TextTransform" = Ok etc ->
  exists replacement,
    resolve (maybeInjectTransform fieldName fieldConfig schemaComposer).1
    = Some replacement
    /\ (forall source args context info e,
          default (defaultResolver fieldName) (resolve fieldConfig)
            source args context info = Throw e ->
          replacement source args context info = Throw e)
    /\ (forall source args context info value,
          default (defaultResolver fieldName) (resolve fieldConfig)
            source args context info = Ok value ->
          args <> VNull ->
          isTextTransform (argsMode args) ->
          replacement source args context info
          = Ok (mapAtDepth (if outerList (type fieldConfig) then 1 else 0)
                  (caseMapping (argsMode args)) value)).
Proof.
  intros Ht He. destruct (maybeBuildTransform_text _ Ht) as [f Hf].
  rewrite (maybeInjectTransform_inject _ _ _ _ _ Hf He). simpl.
  eexists. split; [done|]. split.
  - intros source args context info e Hr. unfold transformingResolver. by rewrite Hr.
  - intros source args context info value Hr Hn Hm.
    rewrite transformingResolver_argsMode by done. rewrite Hr. simpl.
    apply (built_transform_mapAtDepth _ _ _ _ Hf). by right.
Qed.

Lemma replacement_resolver_with_mode_witness :
  exists replacement,
    resolve (maybeInjectTransform "tags"
               {| type := ListComposer (NamedTypeComposer "String");
                  args := None; resolve := None |}
               enumOnly).1 = Some replacement
    /\ replacement (VObject [("tags", VArray [VString "a b"; VNull])])
         (VObject [("textTransform", VString "TitleCase")]) VNull VNull
       = Ok (VArray [VString "A B"; VNull]).
Proof.
  destruct (replacement_resolver_with_mode "tags"
              {| type := ListComposer (NamedTypeComposer "String");
                 args := None; resolve := None |}
              enumOnly (NamedTypeComposer "TextTransform") eq_refl eq_refl)
    as (replacement & Hr & _ & Hm).
  exists replacement. split; [exact Hr|].
  apply (Hm (VObject [("tags", VArray [VString "a b"; VNull])])
            (VObject [("textTransform", VString "TitleCase")]) VNull VNull
            (VArray [VString "a b"; VNull])).
  - reflexivity.
  - discriminate.
  - unfold isTextTransform. simpl. auto.
Defined.

(** ** The whole pass *)

Lemma rewriteField_missing (ref : nat) (fieldName : string) (composer : SchemaComposer) :
  getField composer ref fieldName = None ->
  (rewriteField ref fieldName composer).1 = composer.
Proof. intros H. unfold rewriteField. by rewrite H. Qed.

Lemma rewriteField_keeps_fields (ref ref' : nat) (fieldName fieldName' : string)
    (composer : SchemaComposer) :
  is_Some (getField composer ref' fieldName') ->
  is_Some (getField (rewriteField ref fieldName composer).1 ref' fieldName').
Proof.
  intros Hsome. destruct (getField composer ref fieldName) as [fc|] eqn:Hget.
  - rewrite (rewriteField_unfold _ _ _ _ Hget). simpl.
    destruct (decide ((ref', fieldName') = (ref, fieldName))) as [[= -> ->]|Hne].
    + rewrite getField_putField_same; eauto.
    + by rewrite getField_putField_other.
  - by rewrite rewriteField_missing.
Qed.

Lemma rewriteField_getETC (ref : nat) (fieldName : string) (composer : SchemaComposer)
    (name : string) :
  getETC (rewriteField ref fieldName composer).1 name = getETC composer name.
Proof.
  destruct (getField composer ref fieldName) as [fc|] eqn:Hget.
  - rewrite (rewriteField_unfold _ _ _ _ Hget). simpl. apply getETC_putField.
  - by rewrite rewriteField_missing.
Qed.

Lemma putField_types (composer : SchemaComposer) (ref : nat) (fieldName : string)
    (fieldConfig : FieldConfig) :
  types (putField composer ref fieldName fieldConfig) = types composer.
Proof.
  unfold putField. by destruct (composers composer !! ref) as [[| |]|].
Qed.

Lemma putField_shape (composer : SchemaComposer) (ref : nat) (fieldName : string)
    (fieldConfig fieldConfig' : FieldConfig) :
  getField composer ref fieldName = Some fieldConfig ->
  type fieldConfig' = type fieldConfig ->
  composerShape <$> composers (putField composer ref fieldName fieldConfig')
  = composerShape <$> composers composer.
Proof.
  intros Hget Ht. destruct (getField_fields _ _ _ _ Hget) as (tn & fields & Hc & Hf).
  unfold putField. rewrite Hc. simpl. rewrite list_fmap_insert. simpl.
  apply list_insert_id. rewrite list_lookup_fmap, Hc. simpl. f_equal. f_equal.
  rewrite fmap_insert. symmetry. apply insert_id. by rewrite lookup_fmap, Hf, Ht.
Qed.

Lemma rewriteField_types (ref : nat) (fieldName : string) (composer : SchemaComposer) :
  types (rewriteField ref fieldName composer).1 = types composer.
Proof.
  destruct (getField composer ref fieldName) as [fc|] eqn:Hget.
  - rewrite (rewriteField_unfold _ _ _ _ Hget). simpl. apply putField_types.
  - by rewrite rewriteField_missing.
Qed.

Lemma rewriteField_shape (ref : nat) (fieldName : string) (composer : SchemaComposer) :
  composerShape <$> composers (rewriteField ref fieldName composer).1
  = composerShape <$> composers composer.
Proof.
  destruct (getField composer ref fieldName) as [fc|] eqn:Hget.
  - rewrite (rewriteField_unfold _ _ _ _ Hget). simpl.
    eapply putField_shape; [done|]. apply maybeInjectTransform_type.
  - by rewrite rewriteField_missing.
Qed.

Lemma rewriteField_ok (ref : nat) (fieldName : string) (composer : SchemaComposer)
    (etc : OutputType) :
  getETC composer "TextTransform" = Ok etc ->
  is_Some (getField composer ref fieldName) ->
  (rewriteField ref fieldName composer).2 = Ok tt.
Proof.
  intros He [fc Hget]. rewrite (rewriteField_unfold _ _ _ _ Hget). simpl.
  by eapply maybeInjectTransform_ready.
Qed.

(** The outer loop body keeps every invariant that the inner loop body keeps
    (in a schema with the enum, on a field that exists). *)
Lemma rewriteType_invariant (Inv : SchemaComposer -> Prop) :
  (forall ref fieldName composer,
     Inv composer -> is_Some (getField composer ref fieldName) ->
     (rewriteField ref fieldName composer).2 = Ok tt
     /\ Inv (rewriteField ref fieldName composer).1) ->
  forall ref composer,
    Inv composer ->
    (rewriteType ref composer).2 = Ok tt /\ Inv (rewriteType ref composer).1.
Proof.
  intros Hfield ref composer Hinv. unfold rewriteType.
  destruct (composers composer !! ref) as [[tn fields| |]|] eqn:E; try done.
  set (names := map fst (map_to_list fields)).
  set (Inv' := fun c => Inv c /\ forall name, name ∈ names -> is_Some (getField c ref name)).
  assert (Hstart : Inv' composer).
  { split; [done|]. intros name Hname. unfold getField. rewrite E.
    apply list_elem_of_fmap in Hname as [[n fc] [-> Hin]].
    apply elem_of_map_to_list in Hin. eauto. }
  destruct (forEach_invariant (rewriteField ref) Inv' names composer Hstart)
    as [Hok [Hinv' _]]; [|done].
  intros name c Hname [Hc Hdom].
  destruct (Hfield ref name c Hc (Hdom _ Hname)) as [? ?].
  split; [done|]. split; [done|].
  intros name' Hname'. apply rewriteField_keeps_fields, Hdom, Hname'.
Qed.

(** If moreover the inner loop body establishes [Done] at the field
    [(ref0, fieldName0)] and keeps it elsewhere, the outer loop body
    establishes it at [ref0] and keeps it elsewhere. *)
Lemma rewriteType_reaches (Inv Done : SchemaComposer -> Prop) (ref0 : nat)
    (fieldName0 : string) :
  (forall ref fieldName composer,
     Inv composer -> is_Some (getField composer ref fieldName) ->
     (rewriteField ref fieldName composer).2 = Ok tt
     /\ Inv (rewriteField ref fieldName composer).1
     /\ (Done composer -> Done (rewriteField ref fieldName composer).1)
     /\ ((ref, fieldName) = (ref0, fieldName0) ->
         Done (rewriteField ref fieldName composer).1)) ->
  (forall composer, Inv composer -> is_Some (getField composer ref0 fieldName0)) ->
  forall ref composer,
    Inv composer ->
    (Done composer -> Done (rewriteType ref composer).1)
    /\ (ref = ref0 -> Done (rewriteType ref composer).1).
Proof.
  intros Hfield Hexists ref composer Hinv. unfold rewriteType.
  destruct (composers composer !! ref) as [[tn fields| |]|] eqn:E.
  2-4: (split; [done|]; intros ->; destruct (Hexists _ Hinv) as [fc Hget];
        unfold getField in Hget; by rewrite E in Hget).
  set (names := map fst (map_to_list fields)).
  set (Inv' := fun c => Inv c /\ forall name, name ∈ names -> is_Some (getField c ref name)).
  assert (Hstart : Inv' composer).
  { split; [done|]. intros name Hname. unfold getField. rewrite E.
    apply list_elem_of_fmap in Hname as [[n fc] [-> Hin]].
    apply elem_of_map_to_list in Hin. eauto. }
  assert (Hstep : forall name c, name ∈ names -> Inv' c ->
                    (rewriteField ref name c).2 = Ok tt
                    /\ Inv' (rewriteField ref name c).1).
  { intros name c Hname [Hc Hdom].
    destruct (Hfield ref name c Hc (Hdom _ Hname)) as (? & ? & _).
    split; [done|]. split; [done|].
    intros name' Hname'. apply rewriteField_keeps_fields, Hdom, Hname'. }
  split.
  - intros Hdone.
    assert (Hstart' : Inv' composer /\ Done composer) by done.
    destruct (forEach_invariant (rewriteField ref)
                (fun c => Inv' c /\ Done c) names composer Hstart')
      as [_ [_ ?]]; [|done].
    intros name c Hname [[Hc Hdom] Hd].
    destruct (Hstep name c Hname (conj Hc Hdom)) as [? ?].
    destruct (Hfield ref name c Hc (Hdom _ Hname)) as (_ & _ & Hk & _). auto.
  - intros ->.
    assert (Hname0 : fieldName0 ∈ names).
    { destruct (Hexists _ Hinv) as [fc Hget].
      unfold getField in Hget. rewrite E in Hget.
      apply list_elem_of_fmap. exists (fieldName0, fc). split; [done|].
      by apply elem_of_map_to_list. }
    apply (forEach_reaches (rewriteField ref0) Inv' Done names composer fieldName0);
      try done.
    + intros c [Hc Hdom].
      by destruct (Hfield ref0 fieldName0 c Hc (Hdom _ Hname0))
        as (_ & _ & _ & Hhit); apply Hhit.
    + intros name c Hname [Hc Hdom] Hd.
      by destruct (Hfield ref0 name c Hc (Hdom _ Hname))
        as (_ & _ & Hk & _); apply Hk.
Qed.

Lemma pass_structure (composer : SchemaComposer) :
  (injectStringTransformMiddleware composer).2 = Ok tt
  /\ types (injectStringTransformMiddleware composer).1
     = types (injectTextTransformEnum composer)
  /\ composerShape <$> composers (injectStringTransformMiddleware composer).1
     = composerShape <$> composers (injectTextTransformEnum composer).
Proof.
  unfold injectStringTransformMiddleware.
  set (start := injectTextTransformEnum composer).
  set (Inv := fun c => (exists etc, getETC c "TextTransform" = Ok etc)
                       /\ types c = types start
                       /\ composerShape <$> composers c
                          = composerShape <$> composers start).
  assert (Hstart : Inv start).
  { split; [|done]. eexists. apply getETC_injectTextTransformEnum. }
  destruct (forEach_invariant rewriteType Inv (map snd (types start)) start Hstart)
    as [Hok (_ & Ht & Hs)]; [|done].
  intros ref c _ Hc. apply (rewriteType_invariant Inv); [|done].
  intros ref' name c' ([etc He] & Ht & Hs) Hsome.
  split; [by eapply rewriteField_ok|]. split; [|split].
  - exists etc. by rewrite rewriteField_getETC.
  - by rewrite rewriteField_types.
  - by rewrite rewriteField_shape.
Qed.

(** X15.  The pass as a whole never throws, and it keeps what the schema
    declares: afterwards the registry has the keys and references it had,
    with [TextTransform] pointing at the new enum, and the store holds the
    same composers in the same places, every object type with the same name,
    the same field names and the same field types, followed by the one enum
    that was added.  No type and no field is added, dropped, renamed or
    retyped. *)
Theorem pass_keeps_declarations (composer : SchemaComposer) :
  (injectStringTransformMiddleware composer).2 = Ok tt
  /\ types (injectStringTransformMiddleware composer).1
     = mapSet (ByName "TextTransform") (length (composers composer)) (types composer)
  /\ composerShape <$> composers (injectStringTransformMiddleware composer).1
     = (composerShape <$> composers composer)
       ++ [EnumShape "TextTransform" ["UPPERCASE"; "lowercase"; "TitleCase"]].
Proof.
  destruct (pass_structure composer) as (Hok & Ht & Hs).
  split; [done|]. split; [done|]. rewrite Hs.
  unfold injectTextTransformEnum, addEnum. simpl. by rewrite fmap_app.
Qed.

Lemma resolverEquiv_refl (r : Resolver) : resolverEquiv r r.
Proof. by intros ? ? ? ?. Qed.

Lemma resolverEquiv_sym (r r' : Resolver) : resolverEquiv r r' -> resolverEquiv r' r.
Proof. intros H ? ? ? ?. by rewrite H. Qed.

Lemma resolverEquiv_trans (r1 r2 r3 : Resolver) :
  resolverEquiv r1 r2 -> resolverEquiv r2 r3 -> resolverEquiv r1 r3.
Proof. intros H1 H2 ? ? ? ?. by rewrite H1, H2. Qed.

Section TextField.

(** The field under observation: [fieldName0] of the object type at [ref0],
    configured as [fieldConfig0] before the pass, with a type for which the
    builder returns [transformFn]. *)
Variables (ref0 : nat) (fieldName0 : string) (fieldConfig0 : FieldConfig).
Variable transformFn : TransformFn.
Hypothesis has_transform : maybeBuildTransform (type fieldConfig0) = Ok transformFn.

Local Abbreviation augmented := (augmented ref0 fieldName0 fieldConfig0 transformFn).
Local Abbreviation textInvariant :=
  (textInvariant ref0 fieldName0 fieldConfig0 transformFn).

Lemma text_rewriteField_step (ref : nat) (fieldName : string)
    (composer : SchemaComposer) :
  textInvariant composer ->
  is_Some (getField composer ref fieldName) ->
  (rewriteField ref fieldName composer).2 = Ok tt
  /\ textInvariant (rewriteField ref fieldName composer).1
  /\ (augmented composer -> augmented (rewriteField ref fieldName composer).1)
  /\ ((ref, fieldName) = (ref0, fieldName0) ->
      augmented (rewriteField ref fieldName composer).1).
Proof.
  intros [He Hstate] [fc Hget].
  split; [eapply rewriteField_ok; eauto|].
  rewrite (rewriteField_unfold _ _ _ _ Hget). simpl.
  assert (Hhit : (ref, fieldName) = (ref0, fieldName0) ->
                 augmented (putField composer ref fieldName
                              (maybeInjectTransform fieldName fc composer).1)).
  { intros [= -> ->]. destruct Hstate as [Hpending|(fc' & r & Hget' & Ht & Ha & Hr & Heq)].
    - rewrite Hget in Hpending. injection Hpending as ->.
      rewrite (maybeInjectTransform_inject _ _ _ _ _ has_transform He).
      do 2 eexists. split; [apply getField_putField_same; eauto|].
      simpl. split; [done|]. split; [done|]. split; [done|].
      apply resolverEquiv_refl.
    - rewrite Hget in Hget'. injection Hget' as <-.
      rewrite (maybeInjectTransform_inject _ _ composer transformFn
                 (NamedTypeComposer "TextTransform")) by (by rewrite ?Ht).
      do 2 eexists. split; [apply getField_putField_same; eauto|].
      simpl. rewrite Ha, Hr. simpl. split; [done|].
      split; [by rewrite insert_insert_eq|]. split; [done|].
      eapply resolverEquiv_trans; [by apply transformingResolver_equiv|].
      apply transformingResolver_twice. intros value transform result.
      by apply built_transform_idempotent with (outputType := type fieldConfig0). }
  assert (Hkeep : augmented composer ->
                  augmented (putField composer ref fieldName
                               (maybeInjectTransform fieldName fc composer).1)).
  { intros Haug. destruct (decide ((ref0, fieldName0) = (ref, fieldName))) as [Heq|Hne].
    - by apply Hhit.
    - destruct Haug as (fc' & r & Hget' & Hrest).
      exists fc', r. by rewrite getField_putField_other. }
  split; [split|split; done].
  - by rewrite getETC_putField.
  - destruct (decide ((ref0, fieldName0) = (ref, fieldName))) as [Heq|Hne].
    + right. by apply Hhit.
    + destruct Hstate as [Hpending|Haug].
      * left. by rewrite getField_putField_other.
      * right. by apply Hkeep.
Qed.

Lemma text_pass (composer : SchemaComposer) (refs : list nat) :
  textInvariant composer ->
  ref0 ∈ refs ->
  augmented (forEach rewriteType refs composer).1.
Proof.
  intros Hinv Hin.
  assert (Hexists : forall c, textInvariant c -> is_Some (getField c ref0 fieldName0)).
  { intros c [_ [H|(fc & r & H & _)]]; eauto. }
  assert (Hfield : forall ref fieldName c,
            textInvariant c -> is_Some (getField c ref fieldName) ->
            (rewriteField ref fieldName c).2 = Ok tt
            /\ textInvariant (rewriteField ref fieldName c).1).
  { intros ref fieldName c Hc Hs.
    by destruct (text_rewriteField_step ref fieldName c Hc Hs) as (? & ? & _). }
  apply (forEach_reaches rewriteType textInvariant augmented refs composer ref0);
    try done.
  - intros ref c _ Hc. by apply rewriteType_invariant.
  - intros c Hc.
    by destruct (rewriteType_reaches textInvariant augmented ref0 fieldName0
                   text_rewriteField_step Hexists ref0 c Hc) as [_ Hhit]; apply Hhit.
  - intros ref c _ Hc Hd.
    by destruct (rewriteType_reaches textInvariant augmented ref0 fieldName0
                   text_rewriteField_step Hexists ref c Hc) as [Hk _]; apply Hk.
Qed.

End TextField.

Lemma registered_after_enum (composer : SchemaComposer) (key : TypeKey) (ref : nat) :
  (key, ref) ∈ types composer ->
  key <> ByName "TextTransform" ->
  ref ∈ map snd (types (injectTextTransformEnum composer)).
Proof.
  intros Hkey Hne. apply list_elem_of_fmap. exists (key, ref). split; [done|].
  by apply mapSet_elem_of.
Qed.

Lemma text_field_pass (composer : SchemaComposer) (key : TypeKey) (ref : nat)
    (fieldName : string) (fieldConfig : FieldConfig) (transformFn : TransformFn) :
  (key, ref) ∈ types composer ->
  key <> ByName "TextTransform" ->
  getField composer ref fieldName = Some fieldConfig ->
  maybeBuildTransform (type fieldConfig) = Ok transformFn ->
  augmented ref fieldName fieldConfig transformFn
    (injectStringTransformMiddleware composer).1.
Proof.
  intros Hkey Hne Hget Hb. unfold injectStringTransformMiddleware.
  apply (text_pass ref fieldName fieldConfig transformFn Hb).
  - split; [apply getETC_injectTextTransformEnum|].
    left. by apply getField_injectTextTransformEnum.
  - by eapply registered_after_enum.
Qed.

Lemma non_text_field_pass (composer : SchemaComposer) (key : TypeKey) (ref : nat)
    (fieldName : string) (fieldConfig : FieldConfig) :
  (key, ref) ∈ types composer ->
  key <> ByName "TextTransform" ->
  getField composer ref fieldName = Some fieldConfig ->
  namedTypeOf (type fieldConfig) <> "String" ->
  settled ref fieldName fieldConfig (injectStringTransformMiddleware composer).1.
Proof.
  intros Hkey Hne Hget Hnt. unfold injectStringTransformMiddleware.
  apply (pass_settles ref fieldName fieldConfig Hnt).
  - split; [eexists; apply getETC_injectTextTransformEnum|].
    exists fieldConfig. split; [by apply getField_injectTextTransformEnum|]. auto.
  - by eapply registered_after_enum.
Qed.

(** X16.  Every field of a registered object type whose type ends in
    String is augmented by the pass: afterwards it has its type, its old
    arguments plus [textTransform] typed by the enum, and a resolver that
    settles on every input as the original resolver (the default one, if the
    field had none) wrapped once with the transform for the field type (the
    base transform, under one list closure if the first layer of the type
    that is not a deferred reference is a list), also when the driver came
    by the field more than once. *)
Theorem text_field_augmented (composer : SchemaComposer) (key : TypeKey) (ref : nat)
    (fieldName : string) (fieldConfig : FieldConfig) :
  (key, ref) ∈ types composer ->
  key <> ByName "TextTransform" ->
  getField composer ref fieldName = Some fieldConfig ->
  namedTypeOf (type fieldConfig) = "String" ->
  exists fieldConfig' replacement,
    getField (injectStringTransformMiddleware composer).1 ref fieldName
    = Some fieldConfig'
    /\ type fieldConfig' = type fieldConfig
    /\ args fieldConfig'
       = Some (<["textTransform" := textTransformArg (NamedTypeComposer "TextTransform")]>
                 (default ∅ (args fieldConfig)))
    /\ resolve fieldConfig' = Some replacement
    /\ resolverEquiv replacement
         (transformingResolver
            (default (defaultResolver fieldName) (resolve fieldConfig))
            (if outerList (type fieldConfig) then listTransform baseTransform
             else baseTransform)).
Proof.
  intros Hkey Hne Hget Ht.
  assert (Hb : maybeBuildTransform (type fieldConfig)
               = Ok (if outerList (type fieldConfig) then listTransform baseTransform
                     else baseTransform)).
  { rewrite maybeBuildTransform_closed_form. apply String.eqb_eq in Ht. by rewrite Ht. }
  exact (text_field_pass composer key ref fieldName fieldConfig _ Hkey Hne Hget Hb).
Qed.

(** A schema where the type [Query] sits under two keys of the registry, so
    that the driver comes by its fields twice. *)
Lemma text_field_augmented_witness :
  exists fieldConfig' replacement,
    getField (injectStringTransformMiddleware
                {| composers := composers sampleSchema;
                   types := [(ByType 7, 0); (ByName "Query", 0)] |}).1 0 "title"
    = Some fieldConfig'
    /\ resolve fieldConfig' = Some replacement
    /\ resolverEquiv replacement
         (transformingResolver (defaultResolver "title") baseTransform).
Proof.
  destruct (text_field_augmented
              {| composers := composers sampleSchema;
                 types := [(ByType 7, 0); (ByName "Query", 0)] |}
              (ByName "Query") 0 "title"
              {| type := NamedTypeComposer "String"; args := None; resolve := None |})
    as (fc & r & Hget & _ & _ & Hr & Heq).
  - right. by left.
  - discriminate.
  - reflexivity.
  - reflexivity.
  - exists fc, r. auto.
Defined.

(** X17.  After the pass no field of a registered object type is without
    a resolver, text or not. *)
Theorem every_field_has_resolver (composer : SchemaComposer) (key : TypeKey)
    (ref : nat) (fieldName : string) (fieldConfig : FieldConfig) :
  (key, ref) ∈ types composer ->
  key <> ByName "TextTransform" ->
  getField composer ref fieldName = Some fieldConfig ->
  exists fieldConfig' resolver,
    getField (injectStringTransformMiddleware composer).1 ref fieldName
    = Some fieldConfig'
    /\ resolve fieldConfig' = Some resolver.
Proof.
  intros Hkey Hne Hget.
  destruct (decide (namedTypeOf (type fieldConfig) = "String")) as [Ht|Ht].
  - destruct (maybeBuildTransform_text _ Ht) as [f Hf].
    destruct (text_field_pass _ _ _ _ _ _ Hkey Hne Hget Hf)
      as (fc & r & ? & _ & _ & ? & _). eauto.
  - destruct (non_text_field_pass _ _ _ _ _ Hkey Hne Hget Ht)
      as (fc & ? & _ & _ & ?). eauto.
Qed.

Lemma every_field_has_resolver_witness :
  exists fieldConfig' resolver,
    getField (injectStringTransformMiddleware sampleSchema).1 0 "count"
    = Some fieldConfig'
    /\ resolve fieldConfig' = Some resolver.
Proof.
  apply (every_field_has_resolver sampleSchema (ByName "Query") 0 "count"
           {| type := NamedTypeComposer "Int"; args := None; resolve := None |}).
  - by left.
  - discriminate.
  - reflexivity.
Defined.

(** X18.  Running the middleware a second time on the schema it has
    rewritten does not throw and changes nothing that can be observed of the
    fields: every field of a registered object type has the type and the
    arguments it had after the first run, and its resolver (wrapped a second
    time, if the field is text) settles on every input as after the first
    run. *)
Theorem middleware_twice (composer : SchemaComposer) (key : TypeKey) (ref : nat)
    (fieldName : string) (fieldConfig : FieldConfig) :
  (key, ref) ∈ types composer ->
  key <> ByName "TextTransform" ->
  getField composer ref fieldName = Some fieldConfig ->
  let once := (injectStringTransformMiddleware composer).1 in
  let twice := (injectStringTransformMiddleware once).1 in
  (injectStringTransformMiddleware once).2 = Ok tt
  /\ exists fc1 fc2 r1 r2,
       getField once ref fieldName = Some fc1
       /\ getField twice ref fieldName = Some fc2
       /\ type fc2 = type fc1
       /\ args fc2 = args fc1
       /\ resolve fc1 = Some r1
       /\ resolve fc2 = Some r2
       /\ resolverEquiv r2 r1.
Proof.
  intros Hkey Hne Hget once twice. subst once twice.
  split; [apply pass_structure|].
  assert (Hkey1 : (key, ref) ∈ types (injectStringTransformMiddleware composer).1).
  { destruct (pass_structure composer) as (_ & -> & _). by apply mapSet_elem_of. }
  destruct (decide (namedTypeOf (type fieldConfig) = "String")) as [Ht|Ht].
  - destruct (maybeBuildTransform_text _ Ht) as [f Hf].
    destruct (text_field_pass _ _ _ _ _ _ Hkey Hne Hget Hf)
      as (fc1 & r1 & Hget1 & Ht1 & Ha1 & Hr1 & He1).
    assert (Hf1 : maybeBuildTransform (type fc1) = Ok f) by (by rewrite Ht1).
    destruct (text_field_pass _ _ _ _ _ _ Hkey1 Hne Hget1 Hf1)
      as (fc2 & r2 & Hget2 & Ht2 & Ha2 & Hr2 & He2).
    exists fc1, fc2, r1, r2. repeat (split; [done|]).
    split; [by rewrite Ha2, Ha1; simpl; rewrite insert_insert_eq|].
    repeat (split; [done|]).
    rewrite Hr1 in He2. simpl in He2.
    eapply resolverEquiv_trans; [exact He2|].
    eapply resolverEquiv_trans; [apply transformingResolver_equiv; exact He1|].
    eapply resolverEquiv_trans; [|apply resolverEquiv_sym; exact He1].
    apply transformingResolver_twice. intros value transform result.
    by apply built_transform_idempotent with (outputType := type fieldConfig).
  - destruct (non_text_field_pass _ _ _ _ _ Hkey Hne Hget Ht)
      as (fc1 & Hget1 & Ht1 & Ha1 & Hr1).
    assert (Hnt1 : namedTypeOf (type fc1) <> "String") by (by rewrite Ht1).
    destruct (non_text_field_pass _ _ _ _ _ Hkey1 Hne Hget1 Hnt1)
      as (fc2 & Hget2 & Ht2 & Ha2 & Hr2).
    rewrite Hr1 in Hr2. simpl in Hr2.
    do 4 eexists. repeat (split; [done|]). apply resolverEquiv_refl.
Qed.

Lemma middleware_twice_witness :
  exists fc1 fc2 r1 r2,
    getField (injectStringTransformMiddleware sampleSchema).1 0 "title" = Some fc1
    /\ getField (injectStringTransformMiddleware
                   (injectStringTransformMiddleware sampleSchema).1).1 0 "title"
       = Some fc2
    /\ type fc2 = type fc1
    /\ args fc2 = args fc1
    /\ resolve fc1 = Some r1
    /\ resolve fc2 = Some r2
    /\ resolverEquiv r2 r1.
Proof.
  apply (middleware_twice sampleSchema (ByName "Query") 0 "title"
           {| type := NamedTypeComposer "String"; args := None; resolve := None |}).
  - by left.
  - discriminate.
  - reflexivity.
Defined.
